(** * Chunked upload coordinator: a shallow embedding and its properties

    The development follows the backend of the chunked upload system:

    - [fileUtils]      (utils/fileUtils.js): pre-allocation and offset writes;
    - [uploadController.js]: [initializeUpload], [uploadChunk],
      [finalizeUpload];
    - [recoveryService] (services/recoveryService.js): the two startup sweeps;
    - [cleanupService.js]: the periodic sweep of abandoned uploads.

    The MySQL tables [uploads] and [chunks] are finite maps keyed by their
    primary keys, the upload directory is a finite map from paths to byte
    lists, and every handler is a function from a world to a world and a
    response.  [NOW()] is an explicit argument (seconds).

    Conventions.  Numbers of the requests and of the environment are
    integers.  Queries and file operations fail only where the state makes
    them fail (a missing file, a duplicate key); connection losses are not
    modelled.  As a function a handler runs as one step; [finalizeUpload] is
    split at its [commit], where another finalizer of the same session can
    run.  The runs of the server come in two transition systems:
    [server_step], where handlers do not overlap, and [loop_step], where a
    chunk request gives way between its guards and its write and a cleanup
    sweep between its SELECT and each row it visits. *)

From Stdlib Require Import ZArith QArith_base Lia.
From Stdlib Require Import Ascii String.
From stdpp Require Import base option list strings gmap pretty.

Local Open Scope string_scope.
Local Open Scope list_scope.
Local Open Scope Z_scope.

(** ** Data model (schema.sql) *)

(** [status ENUM('UPLOADING','PROCESSING','COMPLETED','FAILED')] *)
Inductive upload_status := UPLOADING | PROCESSING | COMPLETED | FAILED.

(** [status ENUM('PENDING','SUCCESS')] *)
Inductive chunk_status := PENDING | SUCCESS.

#[global] Instance upload_status_eq_dec : EqDecision upload_status.
Proof. solve_decision. Defined.

#[global] Instance chunk_status_eq_dec : EqDecision chunk_status.
Proof. solve_decision. Defined.

Definition status_name (s : upload_status) : string :=
  match s with
  | UPLOADING => "UPLOADING"
  | PROCESSING => "PROCESSING"
  | COMPLETED => "COMPLETED"
  | FAILED => "FAILED"
  end.

(** A row of [uploads]; the primary key [id] is the key of the map. *)
Record upload_row := UploadRow {
  filename : string;
  total_size : Z;
  total_chunks : Z;
  status : upload_status;
  final_hash : option string;
  file_path : string;
  created_at : Z;
  updated_at : Z;
  completed_at : option Z
}.

(** A row of [chunks]; the primary key [(upload_id, chunk_index)] is the key
    of the map. *)
Record chunk_row := ChunkRow {
  c_status : chunk_status;
  received_at : option Z
}.

(** The metadata store, the upload directory and the names of the files
    multer left in the temp directory. *)
Record world := World {
  uploads : gmap string upload_row;
  chunks : gmap (string * Z) chunk_row;
  files : gmap string (list Byte.byte);
  temp : gset string
}.

Definition empty_world : world := World ∅ ∅ ∅ ∅.

(** The status of a session, if it exists. *)
Definition status_at (w : world) (id : string) : option upload_status :=
  status <$> uploads w !! id.

Definition with_uploads (f : gmap string upload_row → gmap string upload_row)
    (w : world) : world :=
  World (f (uploads w)) (chunks w) (files w) (temp w).

Definition with_chunks (f : gmap (string * Z) chunk_row → gmap (string * Z) chunk_row)
    (w : world) : world :=
  World (uploads w) (f (chunks w)) (files w) (temp w).

Definition with_files (f : gmap string (list Byte.byte) → gmap string (list Byte.byte))
    (w : world) : world :=
  World (uploads w) (chunks w) (f (files w)) (temp w).

Definition with_temp (f : gset string → gset string) (w : world) : world :=
  World (uploads w) (chunks w) (files w) (f (temp w)).

(** Column updates of [UPDATE uploads SET ...]. *)
Definition set_status (s : upload_status) (r : upload_row) : upload_row :=
  UploadRow (filename r) (total_size r) (total_chunks r) s (final_hash r)
            (file_path r) (created_at r) (updated_at r) (completed_at r).

Definition set_updated_at (t : Z) (r : upload_row) : upload_row :=
  UploadRow (filename r) (total_size r) (total_chunks r) (status r) (final_hash r)
            (file_path r) (created_at r) t (completed_at r).

Definition set_final_hash (h : string) (r : upload_row) : upload_row :=
  UploadRow (filename r) (total_size r) (total_chunks r) (status r) (Some h)
            (file_path r) (created_at r) (updated_at r) (completed_at r).

Definition set_completed_at (t : Z) (r : upload_row) : upload_row :=
  UploadRow (filename r) (total_size r) (total_chunks r) (status r) (final_hash r)
            (file_path r) (created_at r) (updated_at r) (Some t).

(** ** fileUtils *)

Module fileUtils.

(** [preallocateFile]: [fs.open(filePath, 'w')] creates or empties the file,
    [fd.truncate(size)] then gives it [size] zero bytes. *)
Definition preallocateFile (filePath : string) (size : Z)
    (fs : gmap string (list Byte.byte)) : gmap string (list Byte.byte) :=
  <[filePath := replicate (Z.to_nat size) Byte.x00]> fs.

(** One positioned write of a buffer, as the write stream issues it: the
    bytes land at [pos]; a write past the end grows the file and the gap
    reads as zeros; an empty buffer writes nothing. *)
Definition pwrite (content : list Byte.byte) (pos : nat) (buf : list Byte.byte)
    : list Byte.byte :=
  match buf with
  | [] => content
  | _ => take pos content ++ replicate (pos - length content) Byte.x00
           ++ buf ++ drop (pos + length buf) content
  end.

(** [dataStream.pipe(writeStream)]: the buffers of the stream are written
    one after the other from [start]. *)
Fixpoint pipe (content : list Byte.byte) (pos : nat)
    (dataStream : list (list Byte.byte)) : list Byte.byte :=
  match dataStream with
  | [] => content
  | buf :: rest => pipe (pwrite content pos buf) (pos + length buf)%nat rest
  end.

(** The ['data'] handler: [bytesWritten += chunk.length]. *)
Definition bytesWritten (dataStream : list (list Byte.byte)) : Z :=
  foldl (λ acc chunk, acc + Z.of_nat (length chunk)) 0 dataStream.

(** [writeChunkAtOffset]: the write stream is opened with flags ['r+'], so a
    missing file rejects (ENOENT) and an existing one is never truncated; a
    negative [start] is refused by [createWriteStream].  On ['finish'] the
    promise resolves to [bytesWritten]. *)
Definition writeChunkAtOffset (filePath : string) (offset : Z)
    (dataStream : list (list Byte.byte)) (fs : gmap string (list Byte.byte))
    : option (gmap string (list Byte.byte) * Z) :=
  match fs !! filePath with
  | None => None
  | Some content =>
      if offset <? 0 then None
      else Some (<[filePath := pipe content (Z.to_nat offset) dataStream]> fs,
                 bytesWritten dataStream)
  end.

(** [safeDeleteFile]: [fs.unlink], with ENOENT ignored. *)
Definition safeDeleteFile (filePath : string)
    (fs : gmap string (list Byte.byte)) : gmap string (list Byte.byte) :=
  delete filePath fs.

(** [getFileSize]: [fs.stat(filePath).size]; throws when the file is absent. *)
Definition getFileSize (filePath : string) (fs : gmap string (list Byte.byte))
    : option Z :=
  (λ content, Z.of_nat (length content)) <$> fs !! filePath.

(** [fileExists]: [fs.access] succeeded. *)
Definition fileExists (filePath : string) (fs : gmap string (list Byte.byte))
    : bool :=
  bool_decide (is_Some (fs !! filePath)).

End fileUtils.

(** *** Facts about positioned writes *)

Lemma pwrite_length content pos buf :
  length (fileUtils.pwrite content pos buf)
  = if decide (buf = []) then length content
    else Nat.max (length content) (pos + length buf).
Proof.
  unfold fileUtils.pwrite. destruct buf as [|b buf]; [done|].
  case_decide; [done|].
  rewrite !length_app, length_take, length_replicate, length_drop. lia.
Qed.

Lemma pwrite_lookup_before content pos buf i :
  (i < pos)%nat → (i < length content)%nat →
  fileUtils.pwrite content pos buf !! i = content !! i.
Proof.
  intros Hi Hlen. unfold fileUtils.pwrite. destruct buf as [|b buf]; [done|].
  rewrite lookup_app_l by (rewrite length_take; lia).
  by rewrite lookup_take_lt.
Qed.

Lemma pwrite_lookup_after content pos buf i :
  (pos + length buf ≤ i)%nat →
  fileUtils.pwrite content pos buf !! i = content !! i.
Proof.
  intros Hi. unfold fileUtils.pwrite. destruct buf as [|b buf]; [done|].
  destruct (decide (i < length content)%nat) as [Hlt|Hge].
  - rewrite lookup_app_r by (rewrite length_take; lia).
    rewrite lookup_app_r by (rewrite length_take, length_replicate; lia).
    rewrite lookup_app_r by (rewrite length_take, length_replicate; simpl in *; lia).
    rewrite lookup_drop. f_equal.
    rewrite length_take, length_replicate. simpl in *. lia.
  - rewrite (lookup_ge_None_2 content) by lia.
    apply lookup_ge_None_2.
    rewrite !length_app, length_take, length_replicate, length_drop. simpl in *. lia.
Qed.

Lemma pwrite_lookup_payload content pos buf j x :
  buf !! j = Some x →
  fileUtils.pwrite content pos buf !! (pos + j)%nat = Some x.
Proof.
  intros Hj. unfold fileUtils.pwrite. destruct buf as [|b buf]; [done|].
  set (payload := b :: buf) in *.
  assert (length (take pos content ++ replicate (pos - length content) Byte.x00) = pos) as Hpre.
  { rewrite length_app, length_take, length_replicate. lia. }
  rewrite (assoc_L (++)).
  rewrite lookup_app_r by lia. rewrite Hpre.
  replace (pos + j - pos)%nat with j by lia.
  rewrite lookup_app_l by (by eapply lookup_lt_Some).
  done.
Qed.

Lemma pwrite_nil_r content pos : fileUtils.pwrite content pos [] = content.
Proof. done. Qed.

Lemma pwrite_app content pos b1 b2 :
  fileUtils.pwrite (fileUtils.pwrite content pos b1) (pos + length b1) b2
  = fileUtils.pwrite content pos (b1 ++ b2).
Proof.
  destruct b1 as [|x1 b1].
  { simpl. by rewrite Nat.add_0_r. }
  destruct b2 as [|x2 b2].
  { by rewrite app_nil_r. }
  set (p1 := x1 :: b1). set (p2 := x2 :: b2).
  assert (fileUtils.pwrite content pos p1
          = (take pos content ++ replicate (pos - length content) Byte.x00 ++ p1)
            ++ drop (pos + length p1) content) as ->.
  { unfold fileUtils.pwrite, p1. by rewrite <-!(assoc_L (++)). }
  set (pre := take pos content ++ replicate (pos - length content) Byte.x00 ++ p1).
  assert (length pre = (pos + length p1)%nat) as Hpre.
  { unfold pre. rewrite !length_app, length_take, length_replicate. lia. }
  unfold fileUtils.pwrite at 1. unfold p2 at 1.
  rewrite take_app_length' by done.
  replace (pos + length p1 - length (pre ++ drop (pos + length p1) content))%nat
    with 0%nat by (rewrite length_app; lia).
  rewrite drop_app_add' by done.
  rewrite drop_drop. simpl replicate.
  unfold fileUtils.pwrite, pre, p1. simpl app.
  rewrite <-!(assoc_L (++)). simpl.
  rewrite length_app. unfold p2. simpl.
  do 7 f_equal. lia.
Qed.

Lemma pipe_concat dataStream : ∀ content pos,
  fileUtils.pipe content pos dataStream
  = fileUtils.pwrite content pos (concat dataStream).
Proof.
  induction dataStream as [|buf rest IH]; intros content pos; simpl.
  - done.
  - by rewrite IH, pwrite_app.
Qed.

Lemma bytesWritten_from acc dataStream :
  foldl (λ a (chunk : list Byte.byte), a + Z.of_nat (length chunk)) acc dataStream
  = acc + Z.of_nat (length (concat dataStream)).
Proof.
  revert acc. induction dataStream as [|buf rest IH]; intros acc; simpl.
  - lia.
  - rewrite IH, length_app. lia.
Qed.

Lemma bytesWritten_concat dataStream :
  fileUtils.bytesWritten dataStream = Z.of_nat (length (concat dataStream)).
Proof. unfold fileUtils.bytesWritten. by rewrite bytesWritten_from. Qed.

(** ** Requests, responses and configuration *)

(** [process.env], after [parseInt] where the code applies it ([None]: the
    variable is unset or does not parse, i.e. [NaN]). *)
Record process_env := ProcessEnv {
  env_UPLOAD_DIR : option string;
  env_CHUNK_SIZE : option Z;
  env_ABANDONED_UPLOAD_TIMEOUT : option Z
}.

(** [x || d] on a string: the empty string is falsy. *)
Definition or_string (x : option string) (d : string) : string :=
  match x with
  | Some s => if decide (s = "") then d else s
  | None => d
  end.

(** [parseInt(x) || d]: [NaN] and [0] are falsy. *)
Definition or_int (x : option Z) (d : Z) : Z :=
  match x with
  | Some n => if n =? 0 then d else n
  | None => d
  end.

(** [Number.isSafeInteger]: the integers a double holds exactly.  The
    configuration values are taken in this range, where [parseInt] is exact
    and [Math.floor(t / 3600000)] is the floor of the exact quotient (the
    rounded quotient of such a [t] is an integer only if the exact one is). *)
Definition safe_integer (n : Z) : Prop := - 2 ^ 53 < n < 2 ^ 53.

(** Body of [POST /upload/init] (integers where the client sends numbers). *)
Record init_request := InitRequest {
  body_filename : option string;
  totalSize : option Z;
  totalChunks : option Z;
  fileHash : option string
}.

(** [req.file] as multer provides it: the temp file and its bytes, in the
    buffers a read stream delivers. *)
Record multer_file := MulterFile {
  path : string;
  buffers : list (list Byte.byte)
}.

(** Body of [POST /upload/chunk]; [chunkIndex] is the integer [parseInt]
    reads from the form field. *)
Record chunk_request := ChunkRequest {
  uploadId : option string;
  chunkIndex : option Z;
  chunkData : option multer_file
}.

Inductive json_body :=
| ErrorBody (error : string) (details : option string)
| InitBody (upload_id : string) (uploadedChunks : list Z) (message : string)
| DuplicateBody (message : string) (chunk_index : Z) (duplicate : bool)
| ProgressBody (message : string) (chunk_index : Z)
    (completed : option Z) (total : Z) (isComplete : bool).

Record response := Response {
  http_status : Z;
  body : json_body
}.

(** [res.json(b)] answers 200; [res.status(c).json(b)] answers [c]. *)
Definition res_json (b : json_body) : response := Response 200 b.
Definition res_status_json (c : Z) (b : json_body) : response := Response c b.

(** ** String helpers of the filename check *)

Definition ascii_toLowerCase (c : ascii) : ascii :=
  let n := N_of_ascii c in
  if ((65 <=? n) && (n <=? 90))%N then ascii_of_N (n + 32) else c.

Fixpoint toLowerCase (s : string) : string :=
  match s with
  | EmptyString => EmptyString
  | String c rest => String (ascii_toLowerCase c) (toLowerCase rest)
  end.

Definition endsWith (s suffix : string) : bool :=
  String.prefix (String.rev suffix) (String.rev s).

(** ** Queries on the [chunks] table *)

Definition pending_row : chunk_row := ChunkRow PENDING None.

(** [INSERT INTO chunks (upload_id, chunk_index, status) VALUES ?] *)
Definition insert_chunk_records (id : string) (indices : list Z)
    (m : gmap (string * Z) chunk_row) : gmap (string * Z) chunk_row :=
  foldr (λ i acc, <[(id, i) := pending_row]> acc) m indices.

(** [SELECT chunk_index FROM chunks WHERE upload_id = ? AND status = 'SUCCESS'] *)
Definition select_success_indices (id : string)
    (m : gmap (string * Z) chunk_row) : list Z :=
  (λ kv : (string * Z) * chunk_row, kv.1.2)
    <$> map_to_list (filter (λ kv : (string * Z) * chunk_row,
                               kv.1.1 = id ∧ c_status kv.2 = SUCCESS) m).

(** [SELECT COUNT( * ) as total, SUM(CASE WHEN status = 'SUCCESS' THEN 1 ELSE 0 END)
    as completed FROM chunks WHERE upload_id = ?]; the sum over no rows is NULL. *)
Definition count_total (id : string) (m : gmap (string * Z) chunk_row) : Z :=
  Z.of_nat (size (filter (λ kv : (string * Z) * chunk_row, kv.1.1 = id) m)).

Definition count_success (id : string) (m : gmap (string * Z) chunk_row) : Z :=
  Z.of_nat (size (filter (λ kv : (string * Z) * chunk_row,
                            kv.1.1 = id ∧ c_status kv.2 = SUCCESS) m)).

Definition count_completed (id : string) (m : gmap (string * Z) chunk_row)
    : option Z :=
  if count_total id m =? 0 then None else Some (count_success id m).

(** [UPDATE chunks SET status = 'SUCCESS', received_at = NOW()
     WHERE upload_id = ? AND chunk_index = ?] *)
Definition mark_success (now : Z) (r : chunk_row) : chunk_row :=
  ChunkRow SUCCESS (Some now).

(** [completed === total] and [completed < total] on what the driver returns,
    taken to be numbers ([null] compares as 0 under [<] and is never [===]
    to a number). *)
Definition js_strict_eq (completed : option Z) (total : Z) : bool :=
  match completed with
  | Some c => c =? total
  | None => false
  end.

Definition js_lt (completed : option Z) (total : Z) : bool :=
  match completed with
  | Some c => c <? total
  | None => 0 <? total
  end.

(** ** The coordinator *)

Section Coordinator.

(** External collaborators: [crypto]'s SHA-256 (hex digest of a file's
    bytes), [yauzl.open] succeeding on a file's bytes, and the whole number
    of hours MySQL uses for a non-integral [INTERVAL ? HOUR] operand. *)
Variable sha256_hex : list Byte.byte → string.
Variable yauzl_opens : list Byte.byte → bool.
Variable sql_interval_hours : Q → Z.
Variable env : process_env.

(** [const UPLOAD_DIR = process.env.UPLOAD_DIR || './uploads'] *)
Definition UPLOAD_DIR : string := or_string (env_UPLOAD_DIR env) "./uploads".

(** [const CHUNK_SIZE = parseInt(process.env.CHUNK_SIZE) || 5242880] *)
Definition CHUNK_SIZE : Z := or_int (env_CHUNK_SIZE env) 5242880.

(** [path.join(UPLOAD_DIR, `${uploadId}.zip`)] *)
Definition upload_file_path (id : string) : string :=
  UPLOAD_DIR +:+ "/" +:+ id +:+ ".zip".

(** *** hashUtils, zipUtils *)

(** [calculateFileHash]: rejects when the file cannot be read. *)
Definition calculateFileHash (filePath : string)
    (fs : gmap string (list Byte.byte)) : option string :=
  sha256_hex <$> fs !! filePath.

(** [isValidZip]: [yauzl.open] failing resolves to [false]. *)
Definition isValidZip (zipPath : string)
    (fs : gmap string (list Byte.byte)) : bool :=
  match fs !! zipPath with
  | Some content => yauzl_opens content
  | None => false
  end.

(** *** initializeUpload

    [id] is the value [uuidv4()] returned and [now] the value of [NOW()]. *)
Definition initializeUpload (id : string) (now : Z) (req : init_request)
    (w : world) : world * response :=
  match body_filename req, totalSize req, totalChunks req with
  | Some fname, Some tsize, Some tchunks =>
      if bool_decide (fname = "") || (tsize =? 0) || (tchunks =? 0) then
        (w, res_status_json 400
              (ErrorBody "Missing required fields: filename, totalSize, totalChunks" None))
      else if (tsize <=? 0) || (tchunks <=? 0) then
        (w, res_status_json 400 (ErrorBody "Invalid totalSize or totalChunks" None))
      else if negb (endsWith (toLowerCase fname) ".zip") then
        (w, res_status_json 400 (ErrorBody "Only ZIP files are supported" None))
      else
        let filePath := upload_file_path id in
        let w1 := with_files (fileUtils.preallocateFile filePath tsize) w in
        let failed := res_status_json 500
                        (ErrorBody "Upload initialization failed" (Some "ER_DUP_ENTRY")) in
        match uploads w1 !! id with
        | Some _ => (w1, failed)
        | None =>
            let row := UploadRow fname tsize tchunks UPLOADING None filePath
                                 now now None in
            let indices := seqZ 0 tchunks in
            if existsb (λ i, bool_decide (is_Some (chunks w1 !! (id, i)))) indices
            then (w1, failed)
            else
              let w2 := with_chunks (insert_chunk_records id indices)
                          (with_uploads (insert id row) w1) in
              let uploadedIndices := select_success_indices id (chunks w2) in
              (w2, res_json (InitBody id uploadedIndices "Upload initialized successfully"))
        end
  | _, _, _ =>
      (w, res_status_json 400
            (ErrorBody "Missing required fields: filename, totalSize, totalChunks" None))
  end.

(** *** uploadChunk

    The result carries the [finalizeUpload] calls handed to [setTimeout], in
    the order of the calls. *)

(** Modelled from the spec: [uploadChunk] reads [chunks] without binding it;
    by "if the chunk row is already SUCCESS, return duplicate" it is the
    result of selecting the row of this session and index. *)
Definition select_chunk_rows (id : string) (chunkIndexNum : Z)
    (m : gmap (string * Z) chunk_row) : list chunk_row :=
  option_list (m !! (id, chunkIndexNum)).

(** Modelled from the spec: [uploadChunk] passes [chunkStream] without
    binding it; by "stream the payload into write_at" it is the stream of the
    uploaded file. *)
Definition chunkStream_of (data : multer_file) : list (list Byte.byte) :=
  buffers data.

(** From [const offset] to the final [res.json], with the [catch] block. *)
Definition uploadChunk_store (now : Z) (id : string) (chunkIndexNum : Z)
    (data : multer_file) (upload : upload_row) (w : world)
    : world * response * list string :=
  let chunkStream := chunkStream_of data in
  let offset := chunkIndexNum * CHUNK_SIZE in
  match fileUtils.writeChunkAtOffset (file_path upload) offset chunkStream (files w) with
  | None =>
      (with_temp (λ t, t ∖ {[path data]}) w,
       res_status_json 500 (ErrorBody "Chunk upload failed" (Some "ENOENT")), [])
  | Some (fs', _) =>
      let w1 := with_files (λ _, fs') w in
      let w2 := with_temp (λ t, t ∖ {[path data]}) w1 in
      let w3 := with_chunks (alter (mark_success now) (id, chunkIndexNum)) w2 in
      let total := count_total id (chunks w3) in
      let completed := count_completed id (chunks w3) in
      let isComplete := js_strict_eq completed total in
      (w3,
       res_json (ProgressBody "Chunk uploaded successfully" chunkIndexNum
                              completed total isComplete),
       (if isComplete then [id] else []) ++ [id])
  end.

Definition uploadChunk (now : Z) (req : chunk_request) (w : world)
    : world * response * list string :=
  let missing := res_status_json 400
    (ErrorBody "Missing required fields: uploadId, chunkIndex, or chunk data" None) in
  match uploadId req, chunkIndex req, chunkData req with
  | Some id, Some chunkIndexNum, Some data =>
      if decide (id = "") then (w, missing, [])
      else
        match uploads w !! id with
        | None => (w, res_status_json 404 (ErrorBody "Upload not found" None), [])
        | Some upload =>
            if negb (bool_decide (status upload = UPLOADING)) then
              (w, res_status_json 400
                    (ErrorBody ("Upload is in " +:+ status_name (status upload)
                                +:+ " state, cannot accept chunks") None), [])
            else if (chunkIndexNum <? 0) || (total_chunks upload <=? chunkIndexNum) then
              (w, res_status_json 400
                    (ErrorBody ("Invalid chunk index: " +:+ pretty chunkIndexNum) None), [])
            else
              match select_chunk_rows id chunkIndexNum (chunks w) with
              | row :: _ =>
                  if bool_decide (c_status row = SUCCESS) then
                    (w, res_json (DuplicateBody "Chunk already uploaded" chunkIndexNum true), [])
                  else uploadChunk_store now id chunkIndexNum data upload w
              | [] => uploadChunk_store now id chunkIndexNum data upload w
              end
        end
  | _, _, _ => (w, missing, [])
  end.

(** *** finalizeUpload

    The function is split at its [commit]: [finalize_lock] is the
    transaction that reads the row [FOR UPDATE] and claims the session,
    [finalize_settle] is what runs after it, outside any transaction, on the
    row that was read. *)
Definition finalize_lock (now : Z) (id : string) (w : world)
    : world * option upload_row :=
  match uploads w !! id with
  | None => (w, None)
  | Some upload =>
      if negb (bool_decide (status upload = UPLOADING)) then (w, None)
      else (with_uploads (alter (λ r, set_updated_at now (set_status PROCESSING r)) id) w,
            Some upload)
  end.

(** The size check, the hash and the ZIP check; [None] when one of them
    throws. *)
Definition finalize_checks (upload : upload_row)
    (fs : gmap string (list Byte.byte)) : option string :=
  match fileUtils.getFileSize (file_path upload) fs with
  | None => None
  | Some actualSize =>
      if negb (actualSize =? total_size upload) then None
      else
        match calculateFileHash (file_path upload) fs with
        | None => None
        | Some finalHash =>
            if negb (isValidZip (file_path upload) fs) then None
            else Some finalHash
        end
  end.

Definition finalize_settle (now : Z) (id : string) (upload : upload_row)
    (w : world) : world :=
  match finalize_checks upload (files w) with
  | Some finalHash =>
      with_uploads
        (alter (λ r, set_completed_at now (set_final_hash finalHash
                       (set_status COMPLETED r))) id) w
  | None => with_uploads (alter (set_status FAILED) id) w
  end.

Definition finalizeUpload (now : Z) (id : string) (w : world) : world :=
  match finalize_lock now id w with
  | (w1, Some upload) => finalize_settle now id upload w1
  | (w1, None) => w1
  end.

(** *** recoveryService *)

(** [SELECT ... FROM uploads WHERE status = 'PROCESSING'] *)
Definition select_processing (m : gmap string upload_row)
    : list (string * upload_row) :=
  map_to_list (filter (λ kv : string * upload_row, status kv.2 = PROCESSING) m).

Definition recoverSingleUpload (now : Z) (w : world)
    (sel : string * upload_row) : world :=
  let '(id, upload) := sel in
  if negb (fileUtils.fileExists (file_path upload) (files w)) then
    with_uploads (alter (set_status FAILED) id) w
  else
    let total := count_total id (chunks w) in
    let completed := count_completed id (chunks w) in
    if js_lt completed total then
      with_uploads (alter (λ r, set_updated_at now (set_status UPLOADING r)) id) w
    else
      match finalize_checks upload (files w) with
      | Some finalHash =>
          with_uploads
            (alter (λ r, set_updated_at now (set_completed_at now
                           (set_final_hash finalHash (set_status COMPLETED r)))) id) w
      | None =>
          with_uploads (alter (λ r, set_updated_at now (set_status FAILED r)) id) w
      end.

Definition recoverInterruptedUploads (now : Z) (w : world) : world :=
  foldl (recoverSingleUpload now) w (select_processing (uploads w)).

(** [parseInt(process.env.ABANDONED_UPLOAD_TIMEOUT) / 3600000 || 24] *)
Definition ABANDONED_TIMEOUT_HOURS : Q :=
  match env_ABANDONED_UPLOAD_TIMEOUT env with
  | Some t => if t =? 0 then inject_Z 24 else Qmake t 3600000
  | None => inject_Z 24
  end.

(** [SELECT ... FROM uploads WHERE status = 'UPLOADING'
     AND created_at < DATE_SUB(NOW(), INTERVAL ? HOUR)] *)
Definition select_abandoned (now hours : Z) (m : gmap string upload_row)
    : list (string * upload_row) :=
  map_to_list (filter (λ kv : string * upload_row,
                         status kv.2 = UPLOADING
                         ∧ created_at kv.2 < now - 3600 * hours) m).

Definition recoverAbandonedUploads (now : Z) (w : world) : world :=
  foldl (λ w (sel : string * upload_row),
           let w1 := with_files (fileUtils.safeDeleteFile (file_path sel.2)) w in
           with_uploads (alter (λ r, set_updated_at now (set_status FAILED r)) sel.1) w1)
        w
        (select_abandoned now (sql_interval_hours ABANDONED_TIMEOUT_HOURS) (uploads w)).

(** Sweep A, then Sweep B; each sweep has its own [NOW()]. *)
Definition performStartupRecovery (nowA nowB : Z) (w : world) : world :=
  recoverAbandonedUploads nowB (recoverInterruptedUploads nowA w).

(** *** cleanupService *)

(** [const ABANDONED_TIMEOUT = parseInt(process.env.ABANDONED_UPLOAD_TIMEOUT) || 86400000] *)
Definition ABANDONED_TIMEOUT : Z :=
  or_int (env_ABANDONED_UPLOAD_TIMEOUT env) 86400000.

(** [Math.floor(ABANDONED_TIMEOUT / 3600000)]: a division of doubles, which
    is the floor of the exact quotient for a [safe_integer] timeout; beyond
    that range the two can differ and the definition does not apply. *)
Definition timeoutHours : Z := ABANDONED_TIMEOUT / 3600000.

Definition cleanupAbandonedUploads (now : Z) (w : world) : world :=
  foldl (λ w (sel : string * upload_row),
           let w1 := with_files (fileUtils.safeDeleteFile (file_path sel.2)) w in
           with_uploads (alter (set_status FAILED) sel.1) w1)
        w
        (select_abandoned now timeoutHours (uploads w)).

(** *** Finalizers as tasks

    [finalizeUpload] runs inside a [setTimeout] callback and awaits between
    its transaction and its checks, so two calls for one session interleave
    at the [commit].  A task is where one call stands. *)
Inductive finalizer :=
| Scheduled
| Claimed (upload : upload_row)
| Returned
| Settled (outcome : upload_status).

(** The status the checks lead to. *)
Definition settle_outcome (upload : upload_row)
    (fs : gmap string (list Byte.byte)) : upload_status :=
  match finalize_checks upload fs with
  | Some _ => COMPLETED
  | None => FAILED
  end.

(** One atomic step of a task: the locking transaction, or the checks with
    the terminal [UPDATE]. *)
Definition finalizer_step (now : Z) (id : string) (t : finalizer) (w : world)
    : world * finalizer :=
  match t with
  | Scheduled =>
      match finalize_lock now id w with
      | (w1, Some upload) => (w1, Claimed upload)
      | (w1, None) => (w1, Returned)
      end
  | Claimed upload =>
      (finalize_settle now id upload w, Settled (settle_outcome upload (files w)))
  | Returned => (w, Returned)
  | Settled outcome => (w, Settled outcome)
  end.

(** Two tasks for the same session under a schedule: each entry names the
    task that takes the next step ([true]: the first) and the clock. *)
Fixpoint run_two (id : string) (sched : list (bool * Z)) (w : world)
    (a b : finalizer) : world * finalizer * finalizer :=
  match sched with
  | [] => (w, a, b)
  | (true, now) :: rest =>
      let '(w1, a1) := finalizer_step now id a w in run_two id rest w1 a1 b
  | (false, now) :: rest =>
      let '(w1, b1) := finalizer_step now id b w in run_two id rest w1 a b1
  end.

Definition finished (t : finalizer) : Prop :=
  match t with
  | Returned | Settled _ => True
  | Scheduled | Claimed _ => False
  end.

(** *** The server as a transition system

    The state of the running process: the stores, the callbacks handed to
    [setTimeout] and the finalizers that have committed their claim and are
    busy with the checks.  In [server_step] a request handler, a step of a
    finalizer and a sweep run from start to end without another one in
    between: these are the runs in which no two handlers overlap, enough to
    show that a state is reached, not that a property holds of every state.
    The runs in which handlers overlap are those of [loop_step] below.
    [uuidv4()] returns an id no session has.  The recovery service runs when
    the process starts, which is also when the callbacks and the finalizers
    of the previous process are gone. *)
Record server := Server {
  store : world;
  timers : list string;
  running : list (string * upload_row)
}.

Definition boot : server := Server empty_world [] [].

(** multer stores the uploaded chunk in the temp directory before the
    handler runs. *)
Definition multer (req : chunk_request) (w : world) : world :=
  match chunkData req with
  | Some data => with_temp (λ t, {[path data]} ∪ t) w
  | None => w
  end.

Inductive server_step : server → server → Prop :=
| step_init id now req σ :
    uploads (store σ) !! id = None →
    server_step σ
      (Server (initializeUpload id now req (store σ)).1 (timers σ) (running σ))
| step_chunk now req σ :
    server_step σ
      (Server (uploadChunk now req (multer req (store σ))).1.1
              (timers σ ++ (uploadChunk now req (multer req (store σ))).2)
              (running σ))
| step_lock now id before after σ :
    timers σ = before ++ id :: after →
    server_step σ
      (Server (finalize_lock now id (store σ)).1
              (before ++ after)
              (running σ
               ++ option_list (pair id <$> (finalize_lock now id (store σ)).2)))
| step_settle now id upload before after σ :
    running σ = before ++ (id, upload) :: after →
    server_step σ
      (Server (finalize_settle now id upload (store σ)) (timers σ) (before ++ after))
| step_cleanup now σ :
    server_step σ
      (Server (cleanupAbandonedUploads now (store σ)) (timers σ) (running σ))
| step_restart nowA nowB σ :
    server_step σ (Server (performStartupRecovery nowA nowB (store σ)) [] []).

Inductive reachable : server → Prop :=
| reachable_boot : reachable boot
| reachable_step σ σ' : reachable σ → server_step σ σ' → reachable σ'.

(** *** Overlapping handlers

    The handlers are [async] functions and give way to each other at every
    [await].  [uploadChunk] reads the session row and checks it (lines
    121-152) and only later writes the blob and the chunk row (lines
    154-181), with no transaction and no lock in between.
    [cleanupAbandonedUploads] selects the abandoned sessions once and then
    deletes and updates them one by one, [WHERE id = ?] alone.  The event
    loop below lets other handlers run in these two gaps.  The recovery
    service is awaited by [startServer] before the cleanup service is
    started and before [app.listen], so nothing runs beside it. *)

(** A chunk request that has passed its guards and has not written yet: the
    values the rest of [uploadChunk] uses. *)
Record chunk_write := ChunkWrite {
  cw_id : string;
  cw_index : Z;
  cw_data : multer_file;
  cw_upload : upload_row
}.

(** [uploadChunk] up to and including the duplicate check: the request goes
    on to the write, or it has been answered. *)
Definition uploadChunk_guards (req : chunk_request) (w : world)
    : option chunk_write :=
  match uploadId req, chunkIndex req, chunkData req with
  | Some id, Some chunkIndexNum, Some data =>
      if decide (id = "") then None
      else
        match uploads w !! id with
        | None => None
        | Some upload =>
            if negb (bool_decide (status upload = UPLOADING)) then None
            else if (chunkIndexNum <? 0) || (total_chunks upload <=? chunkIndexNum) then None
            else
              match select_chunk_rows id chunkIndexNum (chunks w) with
              | row :: _ =>
                  if bool_decide (c_status row = SUCCESS) then None
                  else Some (ChunkWrite id chunkIndexNum data upload)
              | [] => Some (ChunkWrite id chunkIndexNum data upload)
              end
        end
  | _, _, _ => None
  end.

(** The process with the chunk requests that wait for their write and the
    cleanup sweeps that have selected their sessions, each with the rows it
    still has to visit. *)
Record loop := Loop {
  proc : server;
  writing : list chunk_write;
  sweeping : list (list (string * upload_row))
}.

Inductive loop_step : loop → loop → Prop :=
| loop_init id now req st :
    uploads (store (proc st)) !! id = None →
    loop_step st
      (Loop (Server (initializeUpload id now req (store (proc st))).1
                    (timers (proc st)) (running (proc st)))
            (writing st) (sweeping st))
| loop_chunk now req st :
    loop_step st
      (Loop (Server (uploadChunk now req (multer req (store (proc st)))).1.1
                    (timers (proc st)
                     ++ (uploadChunk now req (multer req (store (proc st)))).2)
                    (running (proc st)))
            (writing st) (sweeping st))
| loop_guard req cw st :
    uploadChunk_guards req (multer req (store (proc st))) = Some cw →
    loop_step st
      (Loop (Server (multer req (store (proc st))) (timers (proc st)) (running (proc st)))
            (writing st ++ [cw]) (sweeping st))
| loop_write now cw before after st :
    writing st = before ++ cw :: after →
    loop_step st
      (Loop (Server (uploadChunk_store now (cw_id cw) (cw_index cw) (cw_data cw)
                                       (cw_upload cw) (store (proc st))).1.1
                    (timers (proc st)
                     ++ (uploadChunk_store now (cw_id cw) (cw_index cw) (cw_data cw)
                                           (cw_upload cw) (store (proc st))).2)
                    (running (proc st)))
            (before ++ after) (sweeping st))
| loop_lock now id before after st :
    timers (proc st) = before ++ id :: after →
    loop_step st
      (Loop (Server (finalize_lock now id (store (proc st))).1
                    (before ++ after)
                    (running (proc st)
                     ++ option_list (pair id <$> (finalize_lock now id (store (proc st))).2)))
            (writing st) (sweeping st))
| loop_settle now id upload before after st :
    running (proc st) = before ++ (id, upload) :: after →
    loop_step st
      (Loop (Server (finalize_settle now id upload (store (proc st)))
                    (timers (proc st)) (before ++ after))
            (writing st) (sweeping st))
| loop_cleanup now st :
    loop_step st
      (Loop (Server (cleanupAbandonedUploads now (store (proc st)))
                    (timers (proc st)) (running (proc st)))
            (writing st) (sweeping st))
| loop_select now st :
    loop_step st
      (Loop (proc st) (writing st)
            (sweeping st ++ [select_abandoned now timeoutHours (uploads (store (proc st)))]))
| loop_reap sel rest before after st :
    sweeping st = before ++ (sel :: rest) :: after →
    loop_step st
      (Loop (Server (with_uploads (alter (set_status FAILED) sel.1)
                       (with_files (fileUtils.safeDeleteFile (file_path sel.2))
                                   (store (proc st))))
                    (timers (proc st)) (running (proc st)))
            (writing st) (before ++ rest :: after))
| loop_restart nowA nowB st :
    loop_step st
      (Loop (Server (performStartupRecovery nowA nowB (store (proc st))) [] []) [] []).


End Coordinator.

(** ** The client's slicing (frontend uploadService.js)

    [const CHUNK_SIZE = 5 * 1024 * 1024],
    [totalChunks = Math.ceil(file.size / CHUNK_SIZE)] and, for chunk
    [chunkIndex], [file.slice(start, end)] with
    [start = chunkIndex * CHUNK_SIZE] and
    [end = Math.min(start + CHUNK_SIZE, file.size)]. *)
Definition CLIENT_CHUNK_SIZE : Z := 5 * 1024 * 1024.

Definition client_totalChunks (size : Z) : Z := - ((- size) / CLIENT_CHUNK_SIZE).

Definition client_slice_length (size chunkIndex : Z) : Z :=
  let start := chunkIndex * CLIENT_CHUNK_SIZE in
  let stop := Z.min (start + CLIENT_CHUNK_SIZE) size in
  stop - start.

(** ** A worked scenario

    A two-chunk upload of six bytes with [CHUNK_SIZE = 4]: the session is
    created ([demo_s1]), chunk 0 and chunk 1 are stored ([demo_s2],
    [demo_s3]), a scheduled finalizer claims the session ([demo_s4]) and
    settles it ([demo_s5]).  The external collaborators are stand-ins. *)
Definition demo_env : process_env := ProcessEnv None (Some 4) None.

Definition demo_sha256 (content : list Byte.byte) : string :=
  "len:" +:+ pretty (length content).
Definition demo_yauzl (content : list Byte.byte) : bool := true.


Definition demo_interval (hours : Q) : Z := 24.

Definition demo_init : init_request :=
  InitRequest (Some "data.zip") (Some 6) (Some 2) None.

Definition demo_chunk (index : Z) (payload : list Byte.byte) : chunk_request :=
  ChunkRequest (Some "u1") (Some index) (Some (MulterFile "tmp/c" [payload])).

Definition demo_chunk0 : chunk_request :=
  demo_chunk 0 [Byte.x01; Byte.x02; Byte.x03; Byte.x04].
Definition demo_chunk1 : chunk_request :=
  demo_chunk 1 [Byte.x05; Byte.x06].

Definition demo_s1 : server :=
  Server (initializeUpload demo_env "u1" 100 demo_init (store boot)).1
         (timers boot) (running boot).

Definition demo_s2 : server :=
  Server (uploadChunk demo_env 101 demo_chunk0 (multer demo_chunk0 (store demo_s1))).1.1
         (timers demo_s1
          ++ (uploadChunk demo_env 101 demo_chunk0 (multer demo_chunk0 (store demo_s1))).2)
         (running demo_s1).

Definition demo_s3 : server :=
  Server (uploadChunk demo_env 102 demo_chunk1 (multer demo_chunk1 (store demo_s2))).1.1
         (timers demo_s2
          ++ (uploadChunk demo_env 102 demo_chunk1 (multer demo_chunk1 (store demo_s2))).2)
         (running demo_s2).

Definition demo_s4 : server :=
  Server (finalize_lock 103 "u1" (store demo_s3)).1
         ([] ++ ["u1"; "u1"])
         (running demo_s3
          ++ option_list (pair "u1" <$> (finalize_lock 103 "u1" (store demo_s3)).2)).

Definition demo_claimed_row : upload_row :=
  UploadRow "data.zip" 6 2 UPLOADING None "./uploads/u1.zip" 100 100 None.

Definition demo_s5 : server :=
  Server (finalize_settle demo_sha256 demo_yauzl 104 "u1" demo_claimed_row (store demo_s4))
         (timers demo_s4) ([] ++ []).

(** The stores after the session was created and after chunk 0 was stored. *)
Definition demo_world : world := store demo_s1.
Definition demo_stored_world : world := store demo_s2.

(** * Properties *)

(** ** Offset writes (fileUtils.writeChunkAtOffset) *)

(** C7, as the code has it: on an existing file and a non-negative offset,
    [writeChunkAtOffset] succeeds, resolves to the number of payload bytes,
    puts the whole payload at [offset], keeps every other byte the file had,
    leaves the other files alone and never shortens the file.  An empty
    payload leaves the file as it is, wherever the offset lies.  For a payload
    that is not empty the new size is the larger of the old size and
    [offset + length]: unchanged when the payload ends inside the file,
    [offset + length] otherwise, and the bytes between the old end and
    [offset] then read as zeros.  A missing file is rejected. *)
Theorem C7_writeChunkAtOffset_effect
    (filePath : string) (offset : Z) (dataStream : list (list Byte.byte))
    (fs : gmap string (list Byte.byte)) (content : list Byte.byte) :
  fs !! filePath = Some content →
  0 ≤ offset →
  let payload := concat dataStream in
  let start := Z.to_nat offset in
  ∃ content',
    fileUtils.writeChunkAtOffset filePath offset dataStream fs
      = Some (<[filePath := content']> fs, Z.of_nat (length payload))
    ∧ (∀ j x, payload !! j = Some x → content' !! (start + j)%nat = Some x)
    ∧ (∀ i, (i < start)%nat → (i < length content)%nat → content' !! i = content !! i)
    ∧ (∀ i, (start + length payload ≤ i)%nat → content' !! i = content !! i)
    ∧ (length content ≤ length content')%nat
    ∧ ((start + length payload ≤ length content)%nat →
         length content' = length content)
    ∧ (payload ≠ [] → (length content < start + length payload)%nat →
         length content' = (start + length payload)%nat)
    ∧ (payload = [] → content' = content)
    ∧ length content'
      = (if decide (payload = []) then length content
         else Nat.max (length content) (start + length payload))
    ∧ (payload ≠ [] → ∀ i, (length content ≤ i < start)%nat →
         content' !! i = Some Byte.x00)
    ∧ (∀ other, fs !! other = None →
         fileUtils.writeChunkAtOffset other offset dataStream fs = None).
Proof.
  intros Hfile Hoff payload start.
  exists (fileUtils.pwrite content start payload).
  assert (length (fileUtils.pwrite content start payload)
          = if decide (payload = []) then length content
            else Nat.max (length content) (start + length payload)) as Hlen
    by apply pwrite_length.
  split_and!.
  - unfold fileUtils.writeChunkAtOffset. rewrite Hfile.
    destruct (Z.ltb_spec offset 0) as [?|_]; [lia|].
    by rewrite pipe_concat, bytesWritten_concat.
  - intros j x Hj. by apply pwrite_lookup_payload.
  - intros i ??. by apply pwrite_lookup_before.
  - intros i ?. by apply pwrite_lookup_after.
  - rewrite Hlen. case_decide; lia.
  - intros ?. rewrite Hlen. case_decide; lia.
  - intros Hne ?. rewrite Hlen. case_decide; [done|lia].
  - intros Hnil. rewrite Hnil. apply pwrite_nil_r.
  - exact Hlen.
  - intros Hne i [Hge Hlt]. unfold fileUtils.pwrite.
    destruct payload as [|b payload']; [done|].
    rewrite lookup_app_r by (rewrite length_take; lia).
    rewrite lookup_app_l by (rewrite length_take, length_replicate; lia).
    apply lookup_replicate_2. rewrite length_take. lia.
  - intros other Hnone. unfold fileUtils.writeChunkAtOffset. by rewrite Hnone.
Qed.

Lemma C7_writeChunkAtOffset_effect_witness :
  let fs : gmap string (list Byte.byte) :=
    {[ "blob.zip" := [Byte.x00; Byte.x00; Byte.x00; Byte.x00] ]} in
  ∃ content',
    fileUtils.writeChunkAtOffset "blob.zip" 1 [[Byte.x01]; [Byte.x02]] fs
      = Some (<["blob.zip" := content']> fs, 2)
    ∧ length content' = 4%nat.
Proof.
  intros fs.
  destruct (C7_writeChunkAtOffset_effect "blob.zip" 1 [[Byte.x01]; [Byte.x02]] fs
              [Byte.x00; Byte.x00; Byte.x00; Byte.x00])
    as (content' & Hw & _ & _ & _ & _ & Hsame & _).
  - reflexivity.
  - lia.
  - exists content'. split; [exact Hw|]. apply Hsame. simpl. lia.
Defined.

(** C7 as stated fails: a payload that ends past the end of the file makes the
    file longer. *)
Lemma C7_write_extends_file :
  let fs : gmap string (list Byte.byte) := {[ "blob.zip" := [Byte.x00; Byte.x00] ]} in
  fileUtils.getFileSize "blob.zip" fs = Some 2
  ∧ (fileUtils.writeChunkAtOffset "blob.zip" 1 [[Byte.x01; Byte.x02]] fs
       ≫= λ r, fileUtils.getFileSize "blob.zip" r.1) = Some 3.
Proof. split; reflexivity. Qed.

(** An empty payload past the end of the file does not extend it. *)
Lemma empty_write_keeps_size :
  let fs : gmap string (list Byte.byte) := {[ "blob.zip" := [Byte.x00; Byte.x00] ]} in
  (fileUtils.writeChunkAtOffset "blob.zip" 5 [] fs
     ≫= λ r, fileUtils.getFileSize "blob.zip" r.1) = Some 2
  ∧ (fileUtils.writeChunkAtOffset "blob.zip" 5 [[]; []] fs
       ≫= λ r, fileUtils.getFileSize "blob.zip" r.1) = Some 2.
Proof. split; reflexivity. Qed.

(** ** Chunk ingestion (uploadController.uploadChunk) *)

Section ChunkIngestion.

Variable env : process_env.

Lemma uploadChunk_not_uploading now req w id idx data upload :
  uploadId req = Some id → id ≠ "" →
  chunkIndex req = Some idx →
  chunkData req = Some data →
  uploads w !! id = Some upload →
  status upload ≠ UPLOADING →
  uploadChunk env now req w
  = (w, res_status_json 400
          (ErrorBody ("Upload is in " +:+ status_name (status upload)
                      +:+ " state, cannot accept chunks") None), []).
Proof.
  intros Hid Hne Hidx Hdata Hup Hst. unfold uploadChunk.
  rewrite Hid, Hidx, Hdata. destruct (decide (id = "")) as [|_]; [done|].
  rewrite Hup. by rewrite bool_decide_eq_false_2.
Qed.

Lemma uploadChunk_duplicate now req w id idx data upload row :
  uploadId req = Some id → id ≠ "" →
  chunkIndex req = Some idx →
  chunkData req = Some data →
  uploads w !! id = Some upload →
  status upload = UPLOADING →
  0 ≤ idx < total_chunks upload →
  chunks w !! (id, idx) = Some row →
  c_status row = SUCCESS →
  uploadChunk env now req w
  = (w, res_json (DuplicateBody "Chunk already uploaded" idx true), []).
Proof.
  intros Hid Hne Hidx Hdata Hup Hst Hrange Hrow Hsucc. unfold uploadChunk.
  rewrite Hid, Hidx, Hdata. destruct (decide (id = "")) as [|_]; [done|].
  rewrite Hup. rewrite bool_decide_eq_true_2 by done. simpl.
  destruct (Z.ltb_spec idx 0) as [?|_]; [lia|].
  destruct (Z.leb_spec (total_chunks upload) idx) as [?|_]; [lia|]. simpl.
  unfold select_chunk_rows. rewrite Hrow. simpl. by rewrite bool_decide_eq_true_2.
Qed.

Lemma uploadChunk_stores now req w id idx data upload :
  uploadId req = Some id → id ≠ "" →
  chunkIndex req = Some idx →
  chunkData req = Some data →
  uploads w !! id = Some upload →
  status upload = UPLOADING →
  0 ≤ idx < total_chunks upload →
  (∀ row, chunks w !! (id, idx) = Some row → c_status row = PENDING) →
  uploadChunk env now req w = uploadChunk_store env now id idx data upload w.
Proof.
  intros Hid Hne Hidx Hdata Hup Hst Hrange Hrow. unfold uploadChunk.
  rewrite Hid, Hidx, Hdata. destruct (decide (id = "")) as [|_]; [done|].
  rewrite Hup. rewrite bool_decide_eq_true_2 by done. simpl.
  destruct (Z.ltb_spec idx 0) as [?|_]; [lia|].
  destruct (Z.leb_spec (total_chunks upload) idx) as [?|_]; [lia|]. simpl.
  unfold select_chunk_rows.
  destruct (chunks w !! (id, idx)) as [row|] eqn:Hr; simpl; [|done].
  rewrite bool_decide_eq_false_2; [done|].
  rewrite (Hrow row eq_refl). discriminate.
Qed.

End ChunkIngestion.

(** C8, as the code has it: a chunk request for a session that is not
    UPLOADING is answered with HTTP status 400 and the message naming the
    state; the world (session, chunk rows, blob, temp file) is unchanged and
    no finalization is scheduled. *)
Theorem C8_chunk_rejected_when_not_uploading
    (env : process_env) (now : Z) (req : chunk_request) (w : world)
    (id : string) (idx : Z) (data : multer_file) (upload : upload_row) :
  uploadId req = Some id → id ≠ "" →
  chunkIndex req = Some idx →
  chunkData req = Some data →
  uploads w !! id = Some upload →
  status upload ≠ UPLOADING →
  ∃ resp,
    uploadChunk env now req w = (w, resp, [])
    ∧ http_status resp = 400
    ∧ body resp = ErrorBody ("Upload is in " +:+ status_name (status upload)
                             +:+ " state, cannot accept chunks") None.
Proof.
  intros. eexists. split; [by eapply uploadChunk_not_uploading|]. done.
Qed.

Lemma C8_chunk_rejected_when_not_uploading_witness :
  ∃ resp,
    uploadChunk demo_env 105 demo_chunk0 (store demo_s4) = (store demo_s4, resp, [])
    ∧ http_status resp = 400
    ∧ body resp = ErrorBody "Upload is in PROCESSING state, cannot accept chunks" None.
Proof.
  apply (C8_chunk_rejected_when_not_uploading demo_env 105 demo_chunk0
           (store demo_s4) "u1" 0
           (MulterFile "tmp/c" [[Byte.x01; Byte.x02; Byte.x03; Byte.x04]])
           (UploadRow "data.zip" 6 2 PROCESSING None "./uploads/u1.zip" 100 103 None));
    first [reflexivity | discriminate].
Defined.

(** C8 as stated fails: the status code of the rejection is 400, not 409. *)
Lemma C8_conflict_is_answered_400 :
  status_at (store demo_s4) "u1" = Some PROCESSING
  ∧ http_status (uploadChunk demo_env 105 demo_chunk0 (store demo_s4)).1.2 = 400
  ∧ http_status (uploadChunk demo_env 105 demo_chunk0 (store demo_s4)).1.2 ≠ 409.
Proof. split_and!; [reflexivity|reflexivity|]. vm_compute. discriminate. Qed.

Lemma writeChunkAtOffset_existing filePath offset dataStream fs content :
  fs !! filePath = Some content → 0 ≤ offset →
  fileUtils.writeChunkAtOffset filePath offset dataStream fs
  = Some (<[filePath := fileUtils.pwrite content (Z.to_nat offset) (concat dataStream)]> fs,
          Z.of_nat (length (concat dataStream))).
Proof.
  intros Hfile Hoff. unfold fileUtils.writeChunkAtOffset. rewrite Hfile.
  destruct (Z.ltb_spec offset 0) as [?|_]; [lia|].
  by rewrite pipe_concat, bytesWritten_concat.
Qed.

(** What an accepted chunk does to the world. *)
Lemma uploadChunk_store_accepts env now id idx data upload w content :
  files w !! file_path upload = Some content →
  0 ≤ idx → 0 ≤ CHUNK_SIZE env →
  ∃ resp tr,
    uploadChunk_store env now id idx data upload w
    = (World (uploads w)
             (alter (mark_success now) (id, idx) (chunks w))
             (<[file_path upload :=
                  fileUtils.pwrite content (Z.to_nat (idx * CHUNK_SIZE env))
                                   (concat (buffers data))]> (files w))
             (temp w ∖ {[path data]}),
       resp, tr)
    ∧ http_status resp = 200.
Proof.
  intros Hfile Hidx Hcs. unfold uploadChunk_store.
  rewrite (writeChunkAtOffset_existing _ _ _ _ content) by (done || lia).
  eexists _, _. split; [reflexivity|done].
Qed.

(** C1, as the code has it: while the session is UPLOADING, a request for a
    chunk whose row is already SUCCESS is answered [duplicate: true]; the
    world (session, chunk rows, blob) is the one before the call and no
    finalization is scheduled. *)
Theorem C1_duplicate_chunk_is_noop
    (env : process_env) (now : Z) (req : chunk_request) (w : world)
    (id : string) (idx : Z) (data : multer_file)
    (upload : upload_row) (row : chunk_row) :
  uploadId req = Some id → id ≠ "" →
  chunkIndex req = Some idx →
  chunkData req = Some data →
  uploads w !! id = Some upload →
  status upload = UPLOADING →
  0 ≤ idx < total_chunks upload →
  chunks w !! (id, idx) = Some row →
  c_status row = SUCCESS →
  uploadChunk env now req w
  = (w, Response 200 (DuplicateBody "Chunk already uploaded" idx true), []).
Proof. intros. by eapply uploadChunk_duplicate. Qed.

(** The same request twice: whatever the first call did, the second one is
    answered [duplicate: true] and leaves the world of the first call. *)
Lemma uploadChunk_twice env now now' req w id idx data upload row content :
  uploadId req = Some id → id ≠ "" →
  chunkIndex req = Some idx →
  chunkData req = Some data →
  uploads w !! id = Some upload →
  status upload = UPLOADING →
  0 ≤ idx < total_chunks upload →
  chunks w !! (id, idx) = Some row →
  files w !! file_path upload = Some content →
  0 ≤ CHUNK_SIZE env →
  let w1 := (uploadChunk env now req w).1.1 in
  uploadChunk env now' req w1
  = (w1, Response 200 (DuplicateBody "Chunk already uploaded" idx true), []).
Proof.
  intros Hid Hne Hidx Hdata Hup Hst Hrange Hrow Hfile Hcs.
  destruct (decide (c_status row = SUCCESS)) as [Hs|Hs].
  - rewrite (uploadChunk_duplicate env now req w id idx data upload row) by done.
    simpl. by eapply uploadChunk_duplicate.
  - rewrite (uploadChunk_stores env now req w id idx data upload); try done.
    + destruct (uploadChunk_store_accepts env now id idx data upload w content)
        as (resp & tr & -> & _); [done|lia|done|]. simpl.
      eapply (uploadChunk_duplicate env now' req _ id idx data upload (mark_success now row));
        try done.
      simpl. by rewrite lookup_alter_eq, Hrow.
    + intros row' Hrow'. rewrite Hrow in Hrow'. injection Hrow' as <-.
      by destruct (c_status row).
Qed.

Lemma C1_duplicate_chunk_is_noop_witness :
  uploadChunk demo_env 102 demo_chunk0 demo_stored_world
  = (demo_stored_world,
     Response 200 (DuplicateBody "Chunk already uploaded" 0 true), []).
Proof.
  apply (C1_duplicate_chunk_is_noop demo_env 102 demo_chunk0 demo_stored_world "u1" 0
           (MulterFile "tmp/c" [[Byte.x01; Byte.x02; Byte.x03; Byte.x04]])
           (UploadRow "data.zip" 6 2 UPLOADING None "./uploads/u1.zip" 100 100 None)
           (ChunkRow SUCCESS (Some 101)));
    first [reflexivity | discriminate | simpl; lia].
Defined.

(** C1 as stated fails when the session is no longer UPLOADING: after the
    upload was completed, the row of chunk 0 is SUCCESS, yet the repeated
    request is answered with the 400 of the status guard, which comes first. *)
Lemma C1_retry_after_completion_is_rejected :
  let w := store demo_s5 in
  status_at w "u1" = Some COMPLETED
  ∧ chunks w !! ("u1", 0) = Some (ChunkRow SUCCESS (Some 101))
  ∧ uploadChunk demo_env 105 demo_chunk0 w
    = (w, Response 400
            (ErrorBody "Upload is in COMPLETED state, cannot accept chunks" None), []).
Proof. cbv zeta. split_and!; reflexivity. Qed.

(** C6, as the code has it: the handler checks the index and the row, never
    the payload length.  For an UPLOADING session, an index in range, a
    PENDING row and a present blob, a payload of any length is accepted: the
    answer is 200, the row becomes SUCCESS and the bytes are written at
    [index * CHUNK_SIZE]. *)
Theorem C6_payload_length_is_not_checked
    (env : process_env) (now : Z) (req : chunk_request) (w : world)
    (id : string) (idx : Z) (data : multer_file)
    (upload : upload_row) (row : chunk_row) (content : list Byte.byte) :
  uploadId req = Some id → id ≠ "" →
  chunkIndex req = Some idx →
  chunkData req = Some data →
  uploads w !! id = Some upload →
  status upload = UPLOADING →
  0 ≤ idx < total_chunks upload →
  chunks w !! (id, idx) = Some row →
  c_status row = PENDING →
  files w !! file_path upload = Some content →
  0 ≤ CHUNK_SIZE env →
  ∃ w' resp tr,
    uploadChunk env now req w = (w', resp, tr)
    ∧ http_status resp = 200
    ∧ chunks w' !! (id, idx) = Some (ChunkRow SUCCESS (Some now))
    ∧ files w' = <[file_path upload :=
                     fileUtils.pwrite content (Z.to_nat (idx * CHUNK_SIZE env))
                                      (concat (buffers data))]> (files w).
Proof.
  intros Hid Hne Hidx Hdata Hup Hst Hrange Hrow Hpend Hfile Hcs.
  rewrite (uploadChunk_stores env now req w id idx data upload); try done.
  - destruct (uploadChunk_store_accepts env now id idx data upload w content)
      as (resp & tr & -> & Hresp); [done|lia|done|].
    eexists _, resp, tr. split_and!; try done.
    simpl. by rewrite lookup_alter_eq, Hrow.
  - intros row' Hrow'. rewrite Hrow in Hrow'. by injection Hrow' as <-.
Qed.

Lemma C6_payload_length_is_not_checked_witness :
  ∃ w' resp tr,
    uploadChunk demo_env 101 (demo_chunk 0 [Byte.x01]) demo_world = (w', resp, tr)
    ∧ http_status resp = 200
    ∧ chunks w' !! ("u1", 0) = Some (ChunkRow SUCCESS (Some 101))
    ∧ files w' = <["./uploads/u1.zip" :=
                     fileUtils.pwrite (replicate 6 Byte.x00) 0 [Byte.x01]]> (files demo_world).
Proof.
  apply (C6_payload_length_is_not_checked demo_env 101 (demo_chunk 0 [Byte.x01]) demo_world
           "u1" 0 (MulterFile "tmp/c" [[Byte.x01]])
           (UploadRow "data.zip" 6 2 UPLOADING None "./uploads/u1.zip" 100 100 None)
           pending_row (replicate 6 Byte.x00));
    first [reflexivity | discriminate | simpl; lia | vm_compute; discriminate].
Defined.

(** C6 as stated fails: with [CHUNK_SIZE = 4] and a six-byte upload in two
    chunks, a one-byte chunk 0 (shorter than [CHUNK_SIZE], not the last) and a
    five-byte chunk 1 (longer than [CHUNK_SIZE], and not the 2 bytes the last
    chunk should have) are both accepted; the second makes the blob 9 bytes. *)
Lemma C6_short_and_long_chunks_accepted :
  CHUNK_SIZE demo_env = 4
  ∧ (let r := uploadChunk demo_env 101 (demo_chunk 0 [Byte.x01]) demo_world in
     http_status r.1.2 = 200
     ∧ c_status <$> chunks r.1.1 !! ("u1", 0) = Some SUCCESS)
  ∧ (let r := uploadChunk demo_env 101
                (demo_chunk 1 [Byte.x01; Byte.x02; Byte.x03; Byte.x04; Byte.x05])
                demo_world in
     http_status r.1.2 = 200
     ∧ c_status <$> chunks r.1.1 !! ("u1", 1) = Some SUCCESS
     ∧ fileUtils.getFileSize "./uploads/u1.zip" (files r.1.1) = Some 9).
Proof. split; [reflexivity|]. split; cbv zeta; split_and!; reflexivity. Qed.

(** The lengths C6 names are the ones the client's slicing produces: every
    chunk but the last has [CHUNK_SIZE] bytes and the last one has
    [size - (totalChunks - 1) * CHUNK_SIZE], between 1 and [CHUNK_SIZE]. *)
Lemma client_slice_lengths (size : Z) :
  0 < size →
  let n := client_totalChunks size in
  0 < n
  ∧ (∀ i, 0 ≤ i < n - 1 → client_slice_length size i = CLIENT_CHUNK_SIZE)
  ∧ client_slice_length size (n - 1) = size - (n - 1) * CLIENT_CHUNK_SIZE
  ∧ 0 < client_slice_length size (n - 1) ≤ CLIENT_CHUNK_SIZE.
Proof.
  intros Hsize n. unfold n, client_totalChunks, client_slice_length, CLIENT_CHUNK_SIZE.
  change (5 * 1024 * 1024) with 5242880.
  pose proof (Z.div_mod (- size) 5242880 ltac:(lia)) as Hdiv.
  pose proof (Z.mod_pos_bound (- size) 5242880 ltac:(lia)) as Hmod.
  set (q := (- size) / 5242880) in *. set (m := (- size) mod 5242880) in *.
  split_and!; intros; lia.
Qed.

(** ** Session creation (uploadController.initializeUpload) *)

(** The FOREIGN KEY of [chunks]: every chunk row belongs to an upload row. *)
Definition chunks_reference_uploads (w : world) : Prop :=
  ∀ k row, chunks w !! k = Some row → is_Some (uploads w !! k.1).

Lemma insert_chunk_records_lookup id indices m k row :
  insert_chunk_records id indices m !! k = Some row →
  row = pending_row ∨ m !! k = Some row.
Proof.
  induction indices as [|i rest IH]; simpl; [by right|].
  destruct (decide ((id, i) = k)) as [<-|Hne].
  - rewrite lookup_insert_eq. intros [= <-]. by left.
  - rewrite lookup_insert_ne by done. exact IH.
Qed.

Lemma select_success_indices_nil id m :
  (∀ k row, m !! k = Some row → k.1 = id → c_status row ≠ SUCCESS) →
  select_success_indices id m = [].
Proof.
  intros Hnone. unfold select_success_indices.
  rewrite map_empty_filter_2; [by rewrite map_to_list_empty|].
  intros k row Hk [Hid Hs]. by eapply Hnone.
Qed.

(** C9: a successful [initializeUpload] answers with an empty
    [uploadedChunks]: the session id is new and its rows were just inserted as
    PENDING, so the query for SUCCESS rows of that id finds none. *)
Theorem C9_initializeUpload_reports_no_chunks
    (env : process_env) (id : string) (now : Z) (req : init_request)
    (w w' : world) (resp : response) :
  chunks_reference_uploads w →
  initializeUpload env id now req w = (w', resp) →
  http_status resp = 200 →
  body resp = InitBody id [] "Upload initialized successfully".
Proof.
  intros Hfk Hinit Hok. unfold initializeUpload in Hinit.
  destruct (body_filename req) as [fname|]; [|by simplify_eq].
  destruct (totalSize req) as [tsize|]; [|by simplify_eq].
  destruct (totalChunks req) as [tchunks|]; [|by simplify_eq].
  destruct (_ || _ || _); [by simplify_eq|].
  destruct (_ || _); [by simplify_eq|].
  destruct (negb _); [by simplify_eq|].
  simpl in Hinit.
  destruct (uploads w !! id) as [?|] eqn:Hfresh; [by simplify_eq|].
  destruct (existsb _ _); [by simplify_eq|].
  injection Hinit as <- <-. simpl. f_equal.
  apply select_success_indices_nil. intros [id' i] row Hrow Heq. simpl in Heq. subst id'.
  apply insert_chunk_records_lookup in Hrow as [->|Hold]; [done|].
  apply Hfk in Hold as [? Hsome]. simpl in Hsome. congruence.
Qed.

(** ** Sweeps over selected rows *)

(** Every sweep of the recovery and cleanup services is a loop over the rows
    a [SELECT] returned; each iteration rewrites the row it visits. *)
Section RowSweeps.

Variable step : world → string * upload_row → world.
Hypothesis step_other : ∀ w sel k,
  k ≠ sel.1 → uploads (step w sel) !! k = uploads w !! k.

Lemma sweep_lookup_unvisited l : ∀ w k,
  k ∉ (l.*1) → uploads (foldl step w l) !! k = uploads w !! k.
Proof.
  induction l as [|sel l IH]; intros w k Hk; simpl; [done|].
  apply not_elem_of_cons in Hk as [Hne Hk].
  rewrite IH by done. by apply step_other.
Qed.

(** Rows with property [Q] that are still there after the sweep were not
    visited, when a visit always leaves a row without [Q]. *)
Lemma sweep_clears (Q : upload_row → Prop) :
  (∀ w sel r, uploads (step w sel) !! sel.1 = Some r → ¬ Q r) →
  ∀ l w k r,
    uploads (foldl step w l) !! k = Some r → Q r →
    (k ∉ (l.*1)) ∧ uploads w !! k = Some r.
Proof.
  intros Hvisit. induction l as [|sel l IH]; intros w k r Hk HQ; simpl in *.
  - split; [set_solver|done].
  - destruct (IH _ _ _ Hk HQ) as [Hnotin Hstep].
    destruct (decide (k = sel.1)) as [->|Hne].
    + by destruct (Hvisit _ _ _ Hstep).
    + rewrite step_other in Hstep by done. split; [|done].
      by apply not_elem_of_cons.
Qed.

(** An invariant of the world is kept by a sweep when every visit keeps it,
    given that the visited row is still the selected one. *)
Lemma sweep_invariant (P : world → Prop) (Sel : upload_row → Prop) :
  (∀ w sel, P w → uploads w !! sel.1 = Some sel.2 → Sel sel.2 → P (step w sel)) →
  ∀ l w,
    NoDup l.*1 →
    Forall (λ sel, uploads w !! sel.1 = Some sel.2 ∧ Sel sel.2) l →
    P w → P (foldl step w l).
Proof.
  intros Hvisit. induction l as [|sel l IH]; intros w Hnodup Hsel HP; simpl; [done|].
  apply NoDup_cons in Hnodup as [Hnotin Hnodup].
  apply Forall_cons in Hsel as [[Hrow Hs] Hsel].
  apply IH; [done| |by apply Hvisit].
  apply Forall_forall. intros sel' Hin.
  destruct (proj1 (Forall_forall _ _) Hsel sel' Hin) as [Hrow' Hs']. split; [|done].
  rewrite step_other; [done|]. intros Heq. apply Hnotin. rewrite <-Heq.
  apply list_elem_of_fmap. by exists sel'.
Qed.

End RowSweeps.

(** The body of the two loops over abandoned uploads: delete the blob, then
    rewrite the row. *)
Definition reap (f : upload_row → upload_row) (w : world)
    (sel : string * upload_row) : world :=
  with_uploads (alter f sel.1)
    (with_files (fileUtils.safeDeleteFile (file_path sel.2)) w).

Lemma reap_other f w sel k :
  k ≠ sel.1 → uploads (reap f w sel) !! k = uploads w !! k.
Proof. intros Hne. simpl. by rewrite lookup_alter_ne. Qed.

Lemma reap_uploads f l : ∀ w k,
  NoDup l.*1 →
  uploads (foldl (reap f) w l) !! k
  = if decide (k ∈ l.*1) then f <$> uploads w !! k else uploads w !! k.
Proof.
  induction l as [|sel l IH]; intros w k Hnodup.
  - simpl foldl. rewrite decide_False; [done|]. apply not_elem_of_nil.
  - apply NoDup_cons in Hnodup as [Hnotin Hnodup].
    simpl foldl. rewrite IH by done. simpl.
    destruct (decide (k = sel.1)) as [->|Hne].
    + rewrite decide_False by done. rewrite decide_True by set_solver.
      by rewrite lookup_alter_eq.
    + rewrite lookup_alter_ne by done.
      destruct (decide (k ∈ l.*1)).
      * rewrite decide_True; [done|]. by apply elem_of_cons; right.
      * rewrite decide_False; [done|]. by apply not_elem_of_cons.
Qed.

Lemma reap_files f l : ∀ w p,
  files (foldl (reap f) w l) !! p
  = if decide (p ∈ (λ sel : string * upload_row, file_path sel.2) <$> l)
    then None else files w !! p.
Proof.
  induction l as [|sel l IH]; intros w p.
  - simpl foldl. rewrite decide_False; [done|]. apply not_elem_of_nil.
  - simpl foldl. rewrite IH. simpl. unfold fileUtils.safeDeleteFile.
    destruct (decide (p = file_path sel.2)) as [->|Hne].
    + rewrite lookup_delete_eq. rewrite (decide_True (P := _ ∈ _ :: _)) by set_solver.
      by case_decide.
    + rewrite lookup_delete_ne by done.
      destruct (decide (p ∈ _ <$> l)).
      * rewrite decide_True; [done|]. by apply elem_of_cons; right.
      * rewrite decide_False; [done|]. by apply not_elem_of_cons.
Qed.

(** ** The periodic cleanup (cleanupService.cleanupAbandonedUploads) *)

Lemma timeoutHours_configured env t :
  env_ABANDONED_UPLOAD_TIMEOUT env = Some t → t ≠ 0 →
  timeoutHours env = t / 3600000.
Proof.
  intros Ht Hne. unfold timeoutHours, ABANDONED_TIMEOUT, or_int. rewrite Ht.
  by destruct (Z.eqb_spec t 0).
Qed.

Lemma timeoutHours_default env :
  env_ABANDONED_UPLOAD_TIMEOUT env = None ∨ env_ABANDONED_UPLOAD_TIMEOUT env = Some 0 →
  timeoutHours env = 24.
Proof.
  intros [Ht|Ht]; unfold timeoutHours, ABANDONED_TIMEOUT, or_int; rewrite Ht; reflexivity.
Qed.

Lemma cleanupAbandonedUploads_reaps env now w id r :
  uploads w !! id = Some r →
  status r = UPLOADING →
  created_at r < now - 3600 * timeoutHours env →
  uploads (cleanupAbandonedUploads env now w) !! id = Some (set_status FAILED r)
  ∧ files (cleanupAbandonedUploads env now w) !! file_path r = None.
Proof.
  intros Hrow Hst Hold.
  change (cleanupAbandonedUploads env now w)
    with (foldl (reap (set_status FAILED)) w
                (select_abandoned now (timeoutHours env) (uploads w))).
  assert ((id, r) ∈ select_abandoned now (timeoutHours env) (uploads w)) as Hin.
  { unfold select_abandoned. by apply elem_of_map_to_list, map_lookup_filter_Some. }
  split.
  - rewrite reap_uploads by apply NoDup_fst_map_to_list.
    rewrite decide_True; [by rewrite Hrow|].
    apply list_elem_of_fmap. by exists (id, r).
  - rewrite reap_files. rewrite decide_True; [done|].
    apply list_elem_of_fmap. by exists (id, r).
Qed.

Lemma cleanupAbandonedUploads_spares env now w id r :
  uploads w !! id = Some r →
  ¬ (status r = UPLOADING ∧ created_at r < now - 3600 * timeoutHours env) →
  uploads (cleanupAbandonedUploads env now w) !! id = Some r.
Proof.
  intros Hrow Hnot.
  change (cleanupAbandonedUploads env now w)
    with (foldl (reap (set_status FAILED)) w
                (select_abandoned now (timeoutHours env) (uploads w))).
  rewrite reap_uploads by apply NoDup_fst_map_to_list.
  rewrite decide_False; [done|].
  intros Hin. apply list_elem_of_fmap in Hin as ([id' r'] & -> & Hin).
  apply elem_of_map_to_list, map_lookup_filter_Some in Hin as [Hrow' Hsel].
  simpl in *. rewrite Hrow in Hrow'. by injection Hrow' as <-.
Qed.

(** The blob of a session the sweep does not select stays, when no selected
    session has the same [file_path]. *)
Lemma cleanupAbandonedUploads_keeps_blob env now w id r :
  uploads w !! id = Some r →
  ¬ (status r = UPLOADING ∧ created_at r < now - 3600 * timeoutHours env) →
  (∀ id' r', uploads w !! id' = Some r' → file_path r' = file_path r → id' = id) →
  files (cleanupAbandonedUploads env now w) !! file_path r = files w !! file_path r.
Proof.
  intros Hrow Hnot Hpath.
  change (cleanupAbandonedUploads env now w)
    with (foldl (reap (set_status FAILED)) w
                (select_abandoned now (timeoutHours env) (uploads w))).
  rewrite reap_files. rewrite decide_False; [done|].
  intros Hin. apply list_elem_of_fmap in Hin as ([id' r'] & Heq & Hin).
  apply elem_of_map_to_list, map_lookup_filter_Some in Hin as [Hrow' Hsel].
  simpl in *. assert (id' = id) as -> by (by apply (Hpath id' r')).
  rewrite Hrow in Hrow'. by injection Hrow' as <-.
Qed.

(** C10, as the code has it: for a configured timeout [t] other than 0 (and
    within the integers a double holds exactly) the sweep reaps exactly the
    UPLOADING sessions created more than [floor (t / 3600000)] hours before
    [NOW()].  Such a session is reaped (blob deleted, status FAILED, the
    other columns kept); every other session, whatever its status, keeps its
    row, and keeps its blob when no reaped session has the same [file_path].
    For [0 < t < 3600000] the cutoff is 0 hours, so an UPLOADING session is
    reaped exactly when it was created before [NOW()]. *)
Theorem C10_cleanup_cutoff
    (env : process_env) (t now : Z) (w : world) (id : string) (r : upload_row) :
  env_ABANDONED_UPLOAD_TIMEOUT env = Some t → t ≠ 0 → safe_integer t →
  uploads w !! id = Some r →
  let w' := cleanupAbandonedUploads env now w in
  let abandoned := status r = UPLOADING ∧ created_at r < now - 3600 * (t / 3600000) in
  let reaped := uploads w' !! id = Some (set_status FAILED r)
                ∧ files w' !! file_path r = None in
  let spared := uploads w' !! id = Some r
                ∧ ((∀ id' r', uploads w !! id' = Some r' →
                      file_path r' = file_path r → id' = id) →
                   files w' !! file_path r = files w !! file_path r) in
  timeoutHours env = t / 3600000
  ∧ (abandoned → reaped)
  ∧ (¬ abandoned → spared)
  ∧ (status r ≠ UPLOADING → spared)
  ∧ (0 < t < 3600000 →
       timeoutHours env = 0
       ∧ (status r = UPLOADING → created_at r < now → reaped)
       ∧ (status r = UPLOADING → now ≤ created_at r → spared)).
Proof.
  intros Ht Hne _ Hrow w' abandoned reaped spared.
  pose proof (timeoutHours_configured env t Ht Hne) as Hh.
  assert (abandoned → reaped) as Hreap.
  { intros [Hst Hold]. apply cleanupAbandonedUploads_reaps; [done..|]. by rewrite Hh. }
  assert (¬ abandoned → spared) as Hspare.
  { intros Hnot. split.
    - apply cleanupAbandonedUploads_spares; [done|]. by rewrite Hh.
    - intros Hpath. apply cleanupAbandonedUploads_keeps_blob with (id := id);
        [done| |done]. by rewrite Hh. }
  split_and!.
  - done.
  - done.
  - done.
  - intros Hst. apply Hspare. by intros [? _].
  - intros Hsub. assert (t / 3600000 = 0) as Hz by (apply Z.div_small; lia).
    split_and!.
    + by rewrite Hh.
    + intros Hst Hold. apply Hreap. split; [done|]. rewrite Hz. lia.
    + intros Hst Hyoung. apply Hspare. intros [_ Hold]. rewrite Hz in Hold. lia.
Qed.

Lemma C10_cleanup_cutoff_witness :
  let env := ProcessEnv None (Some 4) (Some 1800000) in
  let w' := cleanupAbandonedUploads env 101 demo_world in
  timeoutHours env = 0
  ∧ status <$> uploads w' !! "u1" = Some FAILED
  ∧ files w' !! "./uploads/u1.zip" = None.
Proof.
  intros env w'.
  destruct (C10_cleanup_cutoff env 1800000 101 demo_world "u1"
              (UploadRow "data.zip" 6 2 UPLOADING None "./uploads/u1.zip" 100 100 None))
    as (_ & _ & _ & _ & Hsub);
    [reflexivity|lia|unfold safe_integer; lia|reflexivity|].
  destruct Hsub as (Hz & Hreap & _); [lia|].
  destruct Hreap as [Hrow Hblob]; [reflexivity|simpl; lia|].
  split_and!; [exact Hz| |exact Hblob].
  unfold w'. rewrite Hrow. reflexivity.
Defined.

(** The sweep leaves a session that is not UPLOADING alone, however old: a
    COMPLETED session created long before the cutoff keeps its row and its
    blob. *)
Lemma cleanup_spares_completed_session :
  let env := ProcessEnv None (Some 4) (Some 1800000) in
  let w' := cleanupAbandonedUploads env 1000000 (store demo_s5) in
  status <$> uploads w' !! "u1" = Some COMPLETED
  ∧ is_Some (files w' !! "./uploads/u1.zip").
Proof. cbv zeta. split; [reflexivity|]. by eexists. Qed.

(** C10 as stated fails at [t = 0]: [parseInt(...) || 86400000] takes 0 for
    unset, the cutoff is 24 hours, and an UPLOADING session an hour old keeps
    its status and its blob. *)
Lemma C10_zero_timeout_is_24_hours :
  let env := ProcessEnv None (Some 4) (Some 0) in
  let w' := cleanupAbandonedUploads env (100 + 3600) demo_world in
  timeoutHours env = 24
  ∧ status <$> uploads w' !! "u1" = Some UPLOADING
  ∧ is_Some (files w' !! "./uploads/u1.zip").
Proof. cbv zeta. split_and!; [reflexivity|reflexivity|]. by eexists. Qed.

(** ** Startup recovery (recoveryService) *)

Section Recovery.

Variable sha256_hex : list Byte.byte → string.
Variable yauzl_opens : list Byte.byte → bool.
Variable sql_interval_hours : Q → Z.
Variable env : process_env.

Abbreviation recoverSingle := (recoverSingleUpload sha256_hex yauzl_opens).
Abbreviation sweepA := (recoverInterruptedUploads sha256_hex yauzl_opens).
Abbreviation sweepB := (recoverAbandonedUploads sql_interval_hours env).

(** Every branch of [recoverSingleUpload] is one [UPDATE uploads ... WHERE
    id = ?] that leaves the row in FAILED, UPLOADING or COMPLETED. *)
Lemma recoverSingleUpload_update now w sel :
  ∃ f : upload_row → upload_row,
    recoverSingle now w sel = with_uploads (alter f sel.1) w
    ∧ ∀ r, status (f r) ≠ PROCESSING.
Proof.
  destruct sel as [id upload]. unfold recoverSingleUpload.
  destruct (negb _); [by eexists; split|].
  destruct (js_lt _ _); [by eexists; split|].
  destruct (finalize_checks _ _ _ _); by eexists; split.
Qed.

Lemma recoverSingleUpload_other now w sel k :
  k ≠ sel.1 → uploads (recoverSingle now w sel) !! k = uploads w !! k.
Proof.
  intros Hne. destruct (recoverSingleUpload_update now w sel) as (f & -> & _).
  simpl. by rewrite lookup_alter_ne.
Qed.

Lemma recoverSingleUpload_visited now w sel r :
  uploads (recoverSingle now w sel) !! sel.1 = Some r → ¬ status r = PROCESSING.
Proof.
  destruct (recoverSingleUpload_update now w sel) as (f & -> & Hf).
  simpl. rewrite lookup_alter_eq.
  destruct (uploads w !! sel.1) as [r0|]; simpl; [|done].
  intros [= <-]. apply Hf.
Qed.

Lemma sweepA_no_processing now w k r :
  uploads (sweepA now w) !! k = Some r → status r ≠ PROCESSING.
Proof.
  intros Hk Hst. unfold recoverInterruptedUploads in Hk.
  destruct (sweep_clears (recoverSingle now) (recoverSingleUpload_other now)
              (λ r, status r = PROCESSING) (recoverSingleUpload_visited now)
              _ _ _ _ Hk Hst) as [Hnotin Hrow].
  apply Hnotin. apply list_elem_of_fmap. exists (k, r). split; [done|].
  unfold select_processing. by apply elem_of_map_to_list, map_lookup_filter_Some.
Qed.

Lemma sweepA_nothing_to_do now w :
  (∀ k r, uploads w !! k = Some r → status r ≠ PROCESSING) →
  sweepA now w = w.
Proof.
  intros Hnone. unfold recoverInterruptedUploads, select_processing.
  rewrite map_empty_filter_2; [by rewrite map_to_list_empty|].
  intros k r Hk Hst. by eapply Hnone.
Qed.

Definition abandoned (now : Z) (r : upload_row) : Prop :=
  status r = UPLOADING
  ∧ created_at r < now - 3600 * sql_interval_hours (ABANDONED_TIMEOUT_HOURS env).

Lemma sweepB_unfold now w :
  sweepB now w
  = foldl (reap (λ r, set_updated_at now (set_status FAILED r))) w
          (select_abandoned now (sql_interval_hours (ABANDONED_TIMEOUT_HOURS env))
                            (uploads w)).
Proof. reflexivity. Qed.

Lemma sweepB_lookup now w k r :
  uploads (sweepB now w) !! k = Some r →
  status r = FAILED ∨ (uploads w !! k = Some r ∧ ¬ abandoned now r).
Proof.
  rewrite sweepB_unfold, reap_uploads by apply NoDup_fst_map_to_list.
  case_decide as Hin.
  - destruct (uploads w !! k) as [r0|]; simpl; [|done]. intros [= <-]. by left.
  - intros Hrow. right. split; [done|]. intros Hab. apply Hin.
    apply list_elem_of_fmap. exists (k, r). split; [done|].
    unfold select_abandoned. by apply elem_of_map_to_list, map_lookup_filter_Some.
Qed.

Lemma sweepB_nothing_to_do now w :
  (∀ k r, uploads w !! k = Some r → ¬ abandoned now r) →
  sweepB now w = w.
Proof.
  intros Hnone. rewrite sweepB_unfold. unfold select_abandoned.
  rewrite map_empty_filter_2; [by rewrite map_to_list_empty|].
  intros k r Hk Hab. by eapply Hnone.
Qed.

(** After one run of the service no session is PROCESSING and no UPLOADING
    session is older than the cutoff of Sweep B. *)
Lemma performStartupRecovery_settled nowA nowB w k r :
  uploads (performStartupRecovery sha256_hex yauzl_opens sql_interval_hours env
             nowA nowB w) !! k = Some r →
  status r ≠ PROCESSING ∧ ¬ abandoned nowB r.
Proof.
  unfold performStartupRecovery. intros Hk.
  apply sweepB_lookup in Hk as [Hfailed|[Hrow Hnot]].
  - split; [by rewrite Hfailed|]. intros [Hup _]. by rewrite Hfailed in Hup.
  - split; [|done]. by eapply sweepA_no_processing.
Qed.

(** A later run only has Sweep B's newly abandoned sessions to deal with. *)
Lemma performStartupRecovery_again nowA nowB nowA' nowB' w :
  let run := performStartupRecovery sha256_hex yauzl_opens sql_interval_hours env in
  run nowA' nowB' (run nowA nowB w) = sweepB nowB' (run nowA nowB w).
Proof.
  intros run. unfold run at 1. unfold performStartupRecovery at 1.
  rewrite sweepA_nothing_to_do; [done|].
  intros k r Hk. by eapply performStartupRecovery_settled.
Qed.

End Recovery.

(** C4: running the recovery service (Sweep A, then Sweep B) a second time
    leaves the metadata store and the blob store as the first run left them.
    The second run may start its Sweep A at any time; its Sweep B reads the
    clock value of the first run's Sweep B.  With a later clock value the
    second run is that Sweep B alone: it reaps the sessions that became
    abandoned in between and does nothing else. *)
Theorem C4_recovery_idempotent
    (sha256_hex : list Byte.byte → string) (yauzl_opens : list Byte.byte → bool)
    (sql_interval_hours : Q → Z) (env : process_env)
    (nowA nowB nowA' : Z) (w : world) :
  let run := performStartupRecovery sha256_hex yauzl_opens sql_interval_hours env in
  run nowA' nowB (run nowA nowB w) = run nowA nowB w
  ∧ ∀ nowB', run nowA' nowB' (run nowA nowB w)
             = recoverAbandonedUploads sql_interval_hours env nowB' (run nowA nowB w).
Proof.
  intros run. unfold run. split; [|intros nowB'; apply performStartupRecovery_again].
  rewrite performStartupRecovery_again.
  apply sweepB_nothing_to_do. intros k r Hk.
  by eapply performStartupRecovery_settled.
Qed.

(** ** Finalization (uploadController.finalizeUpload) *)

Section Finalization.

Variable sha256_hex : list Byte.byte → string.
Variable yauzl_opens : list Byte.byte → bool.

Abbreviation settle := (finalize_settle sha256_hex yauzl_opens).
Abbreviation task_step := (finalizer_step sha256_hex yauzl_opens).
Abbreviation outcome_of := (settle_outcome sha256_hex yauzl_opens).

Lemma finalize_lock_claims now id w :
  status_at w id = Some UPLOADING →
  ∃ w' upload,
    finalize_lock now id w = (w', Some upload)
    ∧ uploads w !! id = Some upload
    ∧ status_at w' id = Some PROCESSING.
Proof.
  unfold status_at, finalize_lock. intros Hst.
  destruct (uploads w !! id) as [upload|] eqn:Hrow; simplify_eq/=.
  rewrite bool_decide_eq_true_2 by done. simpl.
  eexists _, _. split_and!; [done..|]. simpl.
  by rewrite lookup_alter_eq, Hrow.
Qed.

Lemma finalize_lock_noop now id w s :
  status_at w id = Some s → s ≠ UPLOADING →
  finalize_lock now id w = (w, None).
Proof.
  unfold status_at, finalize_lock. intros Hst Hne.
  destruct (uploads w !! id) as [upload|] eqn:Hrow; simplify_eq/=.
  by rewrite bool_decide_eq_false_2.
Qed.

Lemma finalize_settle_status now id upload w s :
  status_at w id = Some s →
  status_at (settle now id upload w) id = Some (outcome_of upload (files w)).
Proof.
  unfold status_at, finalize_settle, settle_outcome. intros Hst.
  destruct (uploads w !! id) as [r|] eqn:Hrow; simplify_eq/=.
  destruct (finalize_checks _ _ _ _); simpl; by rewrite lookup_alter_eq, Hrow.
Qed.

Lemma outcome_terminal upload fs :
  outcome_of upload fs = COMPLETED ∨ outcome_of upload fs = FAILED.
Proof. unfold settle_outcome. destruct (finalize_checks _ _ _ _); auto. Qed.

(** A call that finds the session out of UPLOADING changes nothing. *)
Lemma finalizeUpload_noop now id w s :
  status_at w id = Some s → s ≠ UPLOADING →
  finalizeUpload sha256_hex yauzl_opens now id w = w
  ∧ task_step now id Scheduled w = (w, Returned).
Proof.
  intros Hst Hne. unfold finalizeUpload, finalizer_step.
  by rewrite (finalize_lock_noop now id w s).
Qed.

(** [finalizeUpload] is a task run to its end without interruption. *)
Lemma finalizeUpload_as_task now id w :
  ∃ t, run_two sha256_hex yauzl_opens id [(true, now); (true, now)] w Scheduled Scheduled
       = (finalizeUpload sha256_hex yauzl_opens now id w, t, Scheduled).
Proof.
  unfold finalizeUpload. simpl.
  destruct (finalize_lock now id w) as [w1 [upload|]]; simpl; by eexists.
Qed.

(** The states two racing finalizers of one session go through: nobody has
    the session; one task owns it (the session is PROCESSING) while the other
    has not run or has returned; the owner has settled it. *)
Definition loser (t : finalizer) : Prop := t = Scheduled ∨ t = Returned.

Inductive race (id : string) (w : world) : finalizer → finalizer → Prop :=
| race_open :
    status_at w id = Some UPLOADING → race id w Scheduled Scheduled
| race_owned_l upload b :
    status_at w id = Some PROCESSING → loser b → race id w (Claimed upload) b
| race_owned_r upload a :
    status_at w id = Some PROCESSING → loser a → race id w a (Claimed upload)
| race_settled_l s b :
    status_at w id = Some s → s = COMPLETED ∨ s = FAILED → loser b →
    race id w (Settled s) b
| race_settled_r s a :
    status_at w id = Some s → s = COMPLETED ∨ s = FAILED → loser a →
    race id w a (Settled s).

Lemma race_sym id w a b : race id w a b → race id w b a.
Proof. destruct 1; by econstructor. Qed.

Lemma race_step_l id now w a b :
  race id w a b →
  race id (task_step now id a w).1 (task_step now id a w).2 b.
Proof.
  intros Hrace. destruct Hrace as [Hst|upload b Hst Hb|upload a Hst Ha|s b Hst Hs Hb|s a Hst Hs Ha].
  - destruct (finalize_lock_claims now id w Hst) as (w' & upload & Hlock & _ & Hst').
    unfold finalizer_step. rewrite Hlock. simpl.
    apply race_owned_l; [done|by left].
  - simpl. apply race_settled_l; [|apply outcome_terminal|done].
    by eapply finalize_settle_status.
  - destruct Ha as [->| ->]; simpl.
    + rewrite (finalize_lock_noop now id w PROCESSING) by done. simpl.
      apply race_owned_r; [done|by right].
    + apply race_owned_r; [done|by right].
  - simpl. by apply race_settled_l.
  - destruct Ha as [->| ->]; simpl.
    + rewrite (finalize_lock_noop now id w s) by (destruct Hs; by subst). simpl.
      apply race_settled_r; [done..|by right].
    + apply race_settled_r; [done..|by right].
Qed.

Lemma race_run id sched : ∀ w a b w' a' b',
  race id w a b →
  run_two sha256_hex yauzl_opens id sched w a b = (w', a', b') →
  race id w' a' b'.
Proof.
  induction sched as [|[who now] rest IH]; intros w a b w' a' b' Hrace Hrun; simpl in Hrun.
  - by simplify_eq.
  - destruct who.
    + destruct (task_step now id a w) as [w1 a1] eqn:Hstep.
      eapply IH; [|exact Hrun].
      pose proof (race_step_l id now w a b Hrace) as Hnext. by rewrite Hstep in Hnext.
    + destruct (task_step now id b w) as [w1 b1] eqn:Hstep.
      eapply IH; [|exact Hrun].
      pose proof (race_step_l id now w b a (race_sym _ _ _ _ Hrace)) as Hnext.
      rewrite Hstep in Hnext. by apply race_sym.
Qed.

End Finalization.

(** C3: when two finalizers of a session that is UPLOADING have both run to
    their end, under any interleaving of their steps, exactly one of them
    performed the terminal update (COMPLETED or FAILED, the status the
    session then has) and the other returned at the status guard; and a
    finalizer that finds a status other than UPLOADING returns with the world
    unchanged. *)
Theorem C3_exactly_one_finalizer_settles
    (sha256_hex : list Byte.byte → string) (yauzl_opens : list Byte.byte → bool)
    (id : string) (sched : list (bool * Z)) (w w' : world) (a b : finalizer) :
  status_at w id = Some UPLOADING →
  run_two sha256_hex yauzl_opens id sched w Scheduled Scheduled = (w', a, b) →
  finished a → finished b →
  (∃ outcome,
     (outcome = COMPLETED ∨ outcome = FAILED)
     ∧ ((a = Settled outcome ∧ b = Returned) ∨ (a = Returned ∧ b = Settled outcome))
     ∧ status_at w' id = Some outcome)
  ∧ (∀ now w0 s, status_at w0 id = Some s → s ≠ UPLOADING →
       finalizeUpload sha256_hex yauzl_opens now id w0 = w0
       ∧ finalizer_step sha256_hex yauzl_opens now id Scheduled w0 = (w0, Returned)).
Proof.
  intros Hst Hrun Ha Hb. split; [|intros now w0 s; apply finalizeUpload_noop].
  assert (race id w' a b) as Hrace.
  { eapply race_run; [|exact Hrun]. by apply race_open. }
  destruct Hrace as [?|upload b ? ?|upload a ? ?|s b Hs Hterm Hlose|s a Hs Hterm Hlose];
    try done.
  - exists s. split_and!; [done| |done]. left. split; [done|].
    by destruct Hlose as [->| ->].
  - exists s. split_and!; [done| |done]. right. split; [|done].
    by destruct Hlose as [->| ->].
Qed.

Lemma C3_exactly_one_finalizer_settles_witness :
  let sched := [(true, 110); (false, 111); (true, 112)] in
  let r := run_two demo_sha256 demo_yauzl "u1" sched demo_world Scheduled Scheduled in
  r.1.2 = Settled COMPLETED ∧ r.2 = Returned
  ∧ ∃ outcome, (outcome = COMPLETED ∨ outcome = FAILED)
               ∧ status_at r.1.1 "u1" = Some outcome.
Proof.
  intros sched r.
  destruct (C3_exactly_one_finalizer_settles demo_sha256 demo_yauzl "u1" sched demo_world
              r.1.1 (Settled COMPLETED) Returned)
    as [(outcome & Hterm & _ & Hst) _]; [reflexivity|reflexivity|exact I|exact I|].
  split_and!; [reflexivity|reflexivity|]. by exists outcome.
Defined.

(** ** The finalization trigger of uploadChunk *)

(** The call under [if (isComplete)] is followed by a second, unguarded
    [setTimeout(() => finalizeUpload(uploadId), 0)]: every stored chunk
    schedules a finalizer, and a complete upload schedules two. *)
Lemma uploadChunk_store_triggers env now id idx data upload w w' resp tr :
  uploadChunk_store env now id idx data upload w = (w', resp, tr) →
  http_status resp = 200 →
  tr = (if js_strict_eq (count_completed id (chunks w')) (count_total id (chunks w'))
        then [id; id] else [id]).
Proof.
  unfold uploadChunk_store.
  destruct (fileUtils.writeChunkAtOffset _ _ _ _) as [[fs' n]|]; [|by intros [= <- <- <-]].
  intros [= <- <- <-] _. simpl. by destruct (js_strict_eq _ _).
Qed.


(** ** Integrity of completed sessions *)

Lemma string_length_append (s t : string) :
  String.length (s +:+ t) = (String.length s + String.length t)%nat.
Proof. induction s as [|c s IH]; simpl; [done|by rewrite IH]. Qed.

Lemma string_append_inj_r (t s1 s2 : string) : s1 +:+ t = s2 +:+ t → s1 = s2.
Proof.
  revert s2. induction s1 as [|c1 s1 IH]; intros [|c2 s2] Heq; simpl in Heq.
  - done.
  - apply (f_equal String.length) in Heq.
    rewrite ?string_length_append in Heq. simpl in Heq.
    rewrite ?string_length_append in Heq. simpl in Heq. lia.
  - apply (f_equal String.length) in Heq.
    rewrite ?string_length_append in Heq. simpl in Heq.
    rewrite ?string_length_append in Heq. simpl in Heq. lia.
  - injection Heq as -> Heq. f_equal. by apply IH.
Qed.

(** Different sessions have different blobs. *)
Lemma upload_file_path_inj env id1 id2 :
  upload_file_path env id1 = upload_file_path env id2 → id1 = id2.
Proof.
  unfold upload_file_path. intros Heq.
  apply (inj (String.append _)) in Heq.
  apply (inj (String.append _)) in Heq.
  by apply string_append_inj_r in Heq.
Qed.

Section Integrity.

Variable sha256_hex : list Byte.byte → string.
Variable yauzl_opens : list Byte.byte → bool.
Variable sql_interval_hours : Q → Z.
Variable env : process_env.

(** The blob of a row passed the three checks of the finalizer and its digest
    is the stored one. *)
Definition verified (fs : gmap string (list Byte.byte)) (r : upload_row) : Prop :=
  ∃ blob,
    fs !! file_path r = Some blob
    ∧ Z.of_nat (length blob) = total_size r
    ∧ final_hash r = Some (sha256_hex blob)
    ∧ yauzl_opens blob = true.

Definition row_ok (fs : gmap string (list Byte.byte)) (r : upload_row) : Prop :=
  match status r with
  | COMPLETED => verified fs r
  | _ => final_hash r = None
  end.

Definition world_ok (w : world) : Prop :=
  ∀ id r, uploads w !! id = Some r →
    file_path r = upload_file_path env id ∧ row_ok (files w) r.

(** The row a finalizer read is still the row of the session, as far as the
    columns it uses go. *)
Definition snapshots_ok (rs : list (string * upload_row)) (w : world) : Prop :=
  ∀ id upload, (id, upload) ∈ rs →
    ∃ r, uploads w !! id = Some r
         ∧ file_path upload = file_path r ∧ total_size upload = total_size r.

Definition server_ok (σ : server) : Prop :=
  world_ok (store σ) ∧ snapshots_ok (running σ) (store σ).

(** An [UPDATE] that leaves [file_path] and [total_size] alone. *)
Definition keeps_blob (f : upload_row → upload_row) : Prop :=
  ∀ r, file_path (f r) = file_path r ∧ total_size (f r) = total_size r.

Lemma row_ok_not_completed fs r :
  status r ≠ COMPLETED → row_ok fs r → final_hash r = None.
Proof. unfold row_ok. by destruct (status r). Qed.

Lemma row_ok_unfinished fs r :
  status r ≠ COMPLETED → final_hash r = None → row_ok fs r.
Proof. unfold row_ok. by destruct (status r). Qed.

(** A change of the upload directory that spares the blobs of the COMPLETED
    sessions. *)
Lemma world_ok_files w w1 :
  uploads w1 = uploads w →
  (∀ id r, uploads w !! id = Some r → status r = COMPLETED →
     files w1 !! file_path r = files w !! file_path r) →
  world_ok w → world_ok w1.
Proof.
  intros Hup Hfiles Hok id r Hrow. rewrite Hup in Hrow.
  destruct (Hok id r Hrow) as [Hpath Hr]. split; [done|].
  unfold row_ok in *. destruct (status r) eqn:Hst; try done.
  destruct Hr as (blob & Hblob & Hrest). exists blob. split; [|done].
  by rewrite (Hfiles id r).
Qed.

(** A write or a delete at the blob of a session that is not COMPLETED. *)
Lemma world_ok_other_blob w w1 id r :
  uploads w1 = uploads w →
  uploads w !! id = Some r → status r ≠ COMPLETED →
  (∀ p, p ≠ file_path r → files w1 !! p = files w !! p) →
  world_ok w → world_ok w1.
Proof.
  intros Hup Hrow Hst Hfiles Hok. apply (world_ok_files w); [done| |done].
  intros id' r' Hrow' Hst'. apply Hfiles. intros Heq.
  destruct (Hok id r Hrow) as [Hp _]. destruct (Hok id' r' Hrow') as [Hp' _].
  rewrite Hp, Hp' in Heq. apply upload_file_path_inj in Heq. subst id'.
  rewrite Hrow in Hrow'. injection Hrow' as <-. done.
Qed.

(** A write at the blob path of an id that has no session. *)
Lemma world_ok_fresh_blob w w1 id :
  uploads w1 = uploads w →
  uploads w !! id = None →
  (∀ p, p ≠ upload_file_path env id → files w1 !! p = files w !! p) →
  world_ok w → world_ok w1.
Proof.
  intros Hup Hfresh Hfiles Hok. apply (world_ok_files w); [done| |done].
  intros id' r' Hrow' _. apply Hfiles. intros Heq.
  destruct (Hok id' r' Hrow') as [Hp' _].
  rewrite Hp' in Heq. apply upload_file_path_inj in Heq. subst id'. congruence.
Qed.

(** An [UPDATE uploads SET ... WHERE id = ?]. *)
Lemma world_ok_update w f id :
  keeps_blob f →
  (∀ r, uploads w !! id = Some r → row_ok (files w) r → row_ok (files w) (f r)) →
  world_ok w → world_ok (with_uploads (alter f id) w).
Proof.
  intros Hf Hrow Hok id' r'. simpl.
  destruct (decide (id' = id)) as [->|Hne].
  - rewrite lookup_alter_eq.
    destruct (uploads w !! id) as [r|] eqn:Hr; simpl; [|done]. intros [= <-].
    destruct (Hok id r Hr) as [Hpath Hr_ok].
    split; [by rewrite (proj1 (Hf r))|by apply Hrow].
  - rewrite lookup_alter_ne by done. apply Hok.
Qed.

Lemma snapshots_ok_update rs w f id :
  keeps_blob f →
  snapshots_ok rs w → snapshots_ok rs (with_uploads (alter f id) w).
Proof.
  intros Hf Hsn id' upload Hin. destruct (Hsn id' upload Hin) as (r & Hr & Hp & Hs).
  simpl. destruct (decide (id' = id)) as [->|Hne].
  - exists (f r). rewrite lookup_alter_eq, Hr. destruct (Hf r) as [-> ->]. done.
  - exists r. by rewrite lookup_alter_ne.
Qed.

Lemma snapshots_ok_same_uploads rs w w1 :
  uploads w1 = uploads w → snapshots_ok rs w → snapshots_ok rs w1.
Proof. intros Hup Hsn id upload Hin. rewrite Hup. by apply Hsn. Qed.

(** *** The checks of the finalizer *)

Lemma finalize_checks_Some upload fs h :
  finalize_checks sha256_hex yauzl_opens upload fs = Some h →
  ∃ blob,
    fs !! file_path upload = Some blob
    ∧ Z.of_nat (length blob) = total_size upload
    ∧ h = sha256_hex blob
    ∧ yauzl_opens blob = true.
Proof.
  unfold finalize_checks, fileUtils.getFileSize, calculateFileHash, isValidZip.
  destruct (fs !! file_path upload) as [blob|]; simpl; [|done].
  destruct (Z.eqb_spec (Z.of_nat (length blob)) (total_size upload)); simpl; [|done].
  destruct (yauzl_opens blob) eqn:Hzip; simpl; [|done].
  intros [= <-]. by exists blob.
Qed.

Lemma finalize_checks_verified upload fs r :
  verified fs r →
  file_path upload = file_path r → total_size upload = total_size r →
  finalize_checks sha256_hex yauzl_opens upload fs = final_hash r.
Proof.
  intros (blob & Hblob & Hsize & Hhash & Hzip) Hp Hs.
  unfold finalize_checks, fileUtils.getFileSize, calculateFileHash, isValidZip.
  rewrite Hp, Hblob, Hs. simpl.
  destruct (Z.eqb_spec (Z.of_nat (length blob)) (total_size r)); [|done]. simpl.
  by rewrite Hzip.
Qed.

(** *** initializeUpload *)

Lemma initializeUpload_world id now req w :
  uploads w !! id = None →
  let w1 := (initializeUpload env id now req w).1 in
  (∀ p, p ≠ upload_file_path env id → files w1 !! p = files w !! p)
  ∧ (uploads w1 = uploads w
     ∨ ∃ row, uploads w1 = <[id := row]> (uploads w)
              ∧ status row = UPLOADING ∧ final_hash row = None
              ∧ file_path row = upload_file_path env id).
Proof.
  intros Hfresh. unfold initializeUpload.
  destruct (body_filename req) as [fname|]; [|by split; [|left]].
  destruct (totalSize req) as [tsize|]; [|by split; [|left]].
  destruct (totalChunks req) as [tchunks|]; [|by split; [|left]].
  destruct (_ || _ || _); [by split; [|left]|].
  destruct (_ || _); [by split; [|left]|].
  destruct (negb _); [by split; [|left]|].
  assert (∀ p, p ≠ upload_file_path env id →
            fileUtils.preallocateFile (upload_file_path env id) tsize (files w) !! p
            = files w !! p) as Hfiles.
  { intros p Hp. unfold fileUtils.preallocateFile. by rewrite lookup_insert_ne. }
  simpl. rewrite Hfresh.
  destruct (existsb _ _); simpl; (split; [done|]); [by left|].
  right. by eexists.
Qed.

Lemma initializeUpload_ok id now req rs w :
  uploads w !! id = None →
  world_ok w → snapshots_ok rs w →
  world_ok (initializeUpload env id now req w).1
  ∧ snapshots_ok rs (initializeUpload env id now req w).1.
Proof.
  intros Hfresh Hok Hsn.
  destruct (initializeUpload_world id now req w Hfresh) as [Hfiles Hup].
  set (w1 := (initializeUpload env id now req w).1) in *.
  destruct Hup as [Hup|(row & Hup & Hst & Hhash & Hpath)].
  - split; [by eapply world_ok_fresh_blob|by eapply snapshots_ok_same_uploads].
  - split.
    + intros id' r'. rewrite Hup.
      destruct (decide (id' = id)) as [->|Hne].
      * rewrite lookup_insert_eq. intros [= <-]. split; [done|].
        apply row_ok_unfinished; [by rewrite Hst|done].
      * rewrite lookup_insert_ne by done. intros Hrow.
        destruct (Hok id' r' Hrow) as [Hp Hr]. split; [done|].
        unfold row_ok in *. destruct (status r'); try done.
        destruct Hr as (blob & Hblob & Hrest). exists blob. split; [|done].
        rewrite Hfiles; [done|]. rewrite Hp. intros Heq.
        by apply upload_file_path_inj in Heq.
    + intros id' upload Hin. destruct (Hsn id' upload Hin) as (r & Hr & Hrest).
      exists r. split; [|done]. rewrite Hup, lookup_insert_ne; [done|]. congruence.
Qed.

(** *** uploadChunk *)

Lemma uploadChunk_store_world now id idx data upload w :
  let w1 := (uploadChunk_store env now id idx data upload w).1.1 in
  uploads w1 = uploads w
  ∧ ∀ p, p ≠ file_path upload → files w1 !! p = files w !! p.
Proof.
  unfold uploadChunk_store, fileUtils.writeChunkAtOffset.
  destruct (files w !! file_path upload) as [content|]; [|done].
  destruct (_ <? 0); [done|]. simpl. split; [done|].
  intros p Hp. by rewrite lookup_insert_ne.
Qed.

Lemma uploadChunk_world now req w :
  let w1 := (uploadChunk env now req w).1.1 in
  uploads w1 = uploads w
  ∧ (files w1 = files w
     ∨ ∃ id upload, uploads w !! id = Some upload ∧ status upload = UPLOADING
                    ∧ ∀ p, p ≠ file_path upload → files w1 !! p = files w !! p).
Proof.
  unfold uploadChunk.
  destruct (uploadId req) as [id|]; [|by split; [|left]].
  destruct (chunkIndex req) as [idx|]; [|by split; [|left]].
  destruct (chunkData req) as [data|]; [|by split; [|left]].
  destruct (decide (id = "")); [by split; [|left]|].
  destruct (uploads w !! id) as [upload|] eqn:Hrow; [|by split; [|left]].
  destruct (bool_decide (status upload = UPLOADING)) eqn:Hst; simpl; [|by split; [|left]].
  apply bool_decide_eq_true in Hst.
  destruct (_ || _); [by split; [|left]|].
  pose proof (uploadChunk_store_world now id idx data upload w) as [Hup Hfiles].
  destruct (select_chunk_rows _ _ _) as [|row ?];
    [|destruct (bool_decide _); [by split; [|left]|]];
    (split; [done|]); right; by exists id, upload.
Qed.

Lemma uploadChunk_ok now req rs w :
  world_ok w → snapshots_ok rs w →
  world_ok (uploadChunk env now req w).1.1
  ∧ snapshots_ok rs (uploadChunk env now req w).1.1.
Proof.
  intros Hok Hsn. destruct (uploadChunk_world now req w) as [Hup Hfiles].
  split; [|by eapply snapshots_ok_same_uploads].
  destruct Hfiles as [Hfiles|(id & upload & Hrow & Hst & Hfiles)].
  - apply (world_ok_files w); [done| |done]. intros. by rewrite Hfiles.
  - apply (world_ok_other_blob w _ id upload); try done. by rewrite Hst.
Qed.

(** *** finalizeUpload *)

Lemma keeps_blob_claim now :
  keeps_blob (λ r, set_updated_at now (set_status PROCESSING r)).
Proof. done. Qed.

Lemma finalize_lock_ok now id rs w :
  world_ok w → snapshots_ok rs w →
  world_ok (finalize_lock now id w).1
  ∧ snapshots_ok (rs ++ option_list (pair id <$> (finalize_lock now id w).2))
                 (finalize_lock now id w).1.
Proof.
  intros Hok Hsn. unfold finalize_lock.
  destruct (uploads w !! id) as [upload|] eqn:Hrow; simpl;
    [|split; [done|by rewrite app_nil_r]].
  destruct (bool_decide (status upload = UPLOADING)) eqn:Hst; simpl;
    [|split; [done|by rewrite app_nil_r]].
  apply bool_decide_eq_true in Hst. split.
  - apply world_ok_update; [done| |done]. intros r Hr Hr_ok.
    simplify_eq. apply row_ok_unfinished; [done|]. simpl.
    eapply row_ok_not_completed; [|done]. by rewrite Hst.
  - intros id' u Hin. apply elem_of_app in Hin as [Hin|Hin].
    + by apply (snapshots_ok_update rs w _ id (keeps_blob_claim now)).
    + apply list_elem_of_singleton in Hin as [= -> ->].
      eexists. simpl. rewrite lookup_alter_eq, Hrow. simpl. done.
Qed.

Lemma finalize_settle_ok now id upload rs w :
  (∃ r, uploads w !! id = Some r
        ∧ file_path upload = file_path r ∧ total_size upload = total_size r) →
  world_ok w → snapshots_ok rs w →
  world_ok (finalize_settle sha256_hex yauzl_opens now id upload w)
  ∧ snapshots_ok rs (finalize_settle sha256_hex yauzl_opens now id upload w).
Proof.
  intros (r & Hrow & Hp & Hs) Hok Hsn. unfold finalize_settle.
  destruct (finalize_checks _ _ _ _) as [h|] eqn:Hchecks.
  - split; [|by apply snapshots_ok_update].
    apply world_ok_update; [done| |done]. intros r' Hr' _. simplify_eq.
    apply finalize_checks_Some in Hchecks as (blob & Hblob & Hsize & -> & Hzip).
    exists blob. simpl. rewrite <-Hp, <-Hs. done.
  - split; [|by apply snapshots_ok_update].
    apply world_ok_update; [done| |done]. intros r' Hr' Hr_ok. simplify_eq.
    destruct (decide (status r = COMPLETED)) as [Hst|Hst].
    + unfold row_ok in Hr_ok. rewrite Hst in Hr_ok.
      rewrite (finalize_checks_verified upload (files w) r Hr_ok Hp Hs) in Hchecks.
      destruct Hr_ok as (? & _ & _ & Hh & _). congruence.
    + apply row_ok_unfinished; [done|]. simpl. by eapply row_ok_not_completed.
Qed.

(** *** The sweeps *)

Lemma recoverSingleUpload_ok now w id upload :
  uploads w !! id = Some upload →
  status upload = PROCESSING →
  world_ok w →
  world_ok (recoverSingleUpload sha256_hex yauzl_opens now w (id, upload)).
Proof.
  intros Hrow Hst Hok.
  assert (final_hash upload = None) as Hnone.
  { destruct (Hok id upload Hrow) as [_ Hr]. eapply row_ok_not_completed; [|done].
    by rewrite Hst. }
  unfold recoverSingleUpload.
  destruct (negb _).
  { apply world_ok_update; [done| |done]. intros r ? _. simplify_eq.
    by apply row_ok_unfinished. }
  destruct (js_lt _ _).
  { apply world_ok_update; [done| |done]. intros r ? _. simplify_eq.
    by apply row_ok_unfinished. }
  destruct (finalize_checks _ _ _ _) as [h|] eqn:Hchecks.
  - apply world_ok_update; [done| |done]. intros r ? _. simplify_eq.
    apply finalize_checks_Some in Hchecks as (blob & Hblob & Hsize & -> & Hzip).
    by exists blob.
  - apply world_ok_update; [done| |done]. intros r ? _. simplify_eq.
    by apply row_ok_unfinished.
Qed.

Lemma recoverInterruptedUploads_ok now w :
  world_ok w → world_ok (recoverInterruptedUploads sha256_hex yauzl_opens now w).
Proof.
  intros Hok. unfold recoverInterruptedUploads.
  apply (sweep_invariant (recoverSingleUpload sha256_hex yauzl_opens now)
           (recoverSingleUpload_other sha256_hex yauzl_opens now)
           world_ok (λ r, status r = PROCESSING)); [| | |done].
  - intros w0 [id upload] Hok0 Hrow Hst. by apply recoverSingleUpload_ok.
  - apply NoDup_fst_map_to_list.
  - apply Forall_forall. intros [id upload] Hin.
    by apply elem_of_map_to_list, map_lookup_filter_Some in Hin.
Qed.

(** The two loops over abandoned uploads differ in the columns they set. *)
Definition marks_failed (f : upload_row → upload_row) : Prop :=
  ∀ r, status (f r) = FAILED ∧ final_hash (f r) = final_hash r.

Lemma reap_ok f rs w sel :
  keeps_blob f → marks_failed f →
  uploads w !! sel.1 = Some sel.2 →
  status sel.2 = UPLOADING →
  world_ok w ∧ snapshots_ok rs w →
  world_ok (reap f w sel) ∧ snapshots_ok rs (reap f w sel).
Proof.
  intros Hkeep Hfail Hrow Hst [Hok Hsn]. destruct sel as [id upload]. simpl in *.
  unfold reap. simpl.
  set (w1 := with_files (fileUtils.safeDeleteFile (file_path upload)) w).
  assert (world_ok w1) as Hok1.
  { apply (world_ok_other_blob w w1 id upload); try done; [by rewrite Hst|].
    intros p Hp. simpl. unfold fileUtils.safeDeleteFile. by rewrite lookup_delete_ne. }
  split.
  - apply (world_ok_update w1); [done| |done]. intros r Hr Hr_ok. simpl in Hr.
    rewrite Hrow in Hr. injection Hr as <-. destruct (Hfail upload) as [Hs Hh].
    apply row_ok_unfinished; [by rewrite Hs|]. rewrite Hh.
    eapply row_ok_not_completed; [|done]. by rewrite Hst.
  - apply (snapshots_ok_update rs w1); [done|]. by apply (snapshots_ok_same_uploads rs w).
Qed.

Lemma reap_sweep_ok f rs now hours w :
  keeps_blob f → marks_failed f →
  world_ok w ∧ snapshots_ok rs w →
  let w1 := foldl (reap f) w (select_abandoned now hours (uploads w)) in
  world_ok w1 ∧ snapshots_ok rs w1.
Proof.
  intros Hkeep Hfail Hok.
  apply (sweep_invariant (reap f) (reap_other f)
           (λ w, world_ok w ∧ snapshots_ok rs w) (λ r, status r = UPLOADING));
    [| | |done].
  - intros w0 sel Hok0 Hrow Hst. by apply reap_ok.
  - apply NoDup_fst_map_to_list.
  - apply Forall_forall. intros [id upload] Hin.
    apply elem_of_map_to_list, map_lookup_filter_Some in Hin as [Hrow [Hst _]].
    done.
Qed.

Lemma cleanupAbandonedUploads_ok now rs w :
  world_ok w ∧ snapshots_ok rs w →
  world_ok (cleanupAbandonedUploads env now w)
  ∧ snapshots_ok rs (cleanupAbandonedUploads env now w).
Proof. intros Hok. by apply (reap_sweep_ok (set_status FAILED)). Qed.

Lemma performStartupRecovery_ok nowA nowB w :
  world_ok w →
  world_ok (performStartupRecovery sha256_hex yauzl_opens sql_interval_hours env
              nowA nowB w).
Proof.
  intros Hok. unfold performStartupRecovery.
  apply (recoverInterruptedUploads_ok nowA) in Hok.
  eapply proj1.
  apply (reap_sweep_ok (λ r, set_updated_at nowB (set_status FAILED r)) []); [done..|].
  split; [done|]. intros id upload Hin. by apply elem_of_nil in Hin.
Qed.

(** *** Every reachable state *)

Abbreviation step := (server_step sha256_hex yauzl_opens sql_interval_hours env).
Abbreviation reach := (reachable sha256_hex yauzl_opens sql_interval_hours env).

Lemma server_step_ok σ σ' : step σ σ' → server_ok σ → server_ok σ'.
Proof.
  intros Hstep [Hok Hsn].
  destruct Hstep as [id now req σ Hfresh|now req σ|now id before after σ Htimers
                    |now id upload before after σ Hrun|now σ|nowA nowB σ];
    unfold server_ok; simpl.
  - by apply initializeUpload_ok.
  - apply uploadChunk_ok.
    + apply (world_ok_files (store σ)); [by unfold multer; destruct (chunkData req)| |done].
      intros. by unfold multer; destruct (chunkData req).
    + apply (snapshots_ok_same_uploads _ (store σ)); [|done].
      by unfold multer; destruct (chunkData req).
  - by apply finalize_lock_ok.
  - assert (snapshots_ok (before ++ after) (store σ)) as Hsn'.
    { intros id' u Hin. apply Hsn. rewrite Hrun.
      apply elem_of_app in Hin as [Hin|Hin]; apply elem_of_app; [by left|right].
      by apply elem_of_cons; right. }
    apply finalize_settle_ok; [|done..].
    apply Hsn. rewrite Hrun. apply elem_of_app. right. by apply elem_of_cons; left.
  - by apply cleanupAbandonedUploads_ok.
  - split; [by apply performStartupRecovery_ok|].
    intros id upload Hin. by apply elem_of_nil in Hin.
Qed.

Lemma reachable_ok σ : reach σ → server_ok σ.
Proof.
  induction 1 as [|σ σ' _ IH Hstep].
  - split; intros id r; simpl; [by rewrite lookup_empty|].
    intros Hin. by apply elem_of_nil in Hin.
  - by eapply server_step_ok.
Qed.

End Integrity.

(** Without overlap the invariant holds: in every state reached by
    [server_step], where each handler and each sweep runs from start to end
    on its own, a session has a [final_hash] only when it is COMPLETED, and a
    COMPLETED session has a blob of [total_size] bytes whose digest is its
    [final_hash]. *)
Lemma serial_runs_keep_completed_verified
    (sha256_hex : list Byte.byte → string) (yauzl_opens : list Byte.byte → bool)
    (sql_interval_hours : Q → Z) (env : process_env)
    (σ : server) (id : string) (r : upload_row) :
  reachable sha256_hex yauzl_opens sql_interval_hours env σ →
  uploads (store σ) !! id = Some r →
  (final_hash r ≠ None → status r = COMPLETED)
  ∧ (status r = COMPLETED →
       ∃ blob,
         files (store σ) !! file_path r = Some blob
         ∧ Z.of_nat (length blob) = total_size r
         ∧ final_hash r = Some (sha256_hex blob)).
Proof.
  intros Hreach Hrow.
  destruct (reachable_ok _ _ _ _ _ Hreach) as [Hok _].
  destruct (Hok id r Hrow) as [_ Hr]. unfold row_ok in Hr.
  split.
  - intros Hhash. destruct (status r); done.
  - intros Hst. rewrite Hst in Hr. destruct Hr as (blob & ? & ? & ? & _).
    by exists blob.
Qed.


(** ** Integrity of COMPLETED sessions when handlers overlap *)



(** The guards and the write are the two halves of the handler. *)
Lemma uploadChunk_guards_Some env now req w cw :
  uploadChunk_guards req w = Some cw →
  uploadChunk env now req w
  = uploadChunk_store env now (cw_id cw) (cw_index cw) (cw_data cw) (cw_upload cw) w.
Proof.
  unfold uploadChunk_guards, uploadChunk.
  destruct (uploadId req) as [id|]; [|done].
  destruct (chunkIndex req) as [idx|]; [|done].
  destruct (chunkData req) as [data|]; [|done].
  destruct (decide (id = "")) as [|_]; [done|].
  destruct (uploads w !! id) as [upload|]; [|done].
  destruct (negb _); [done|].
  destruct (_ || _); [done|].
  destruct (select_chunk_rows _ _ _) as [|row ?]; [by intros [= <-]|].
  destruct (bool_decide _); [done|]. by intros [= <-].
Qed.

Lemma uploadChunk_guards_None env now req w :
  uploadChunk_guards req w = None →
  (uploadChunk env now req w).1.1 = w ∧ (uploadChunk env now req w).2 = [].
Proof.
  unfold uploadChunk_guards, uploadChunk.
  destruct (uploadId req) as [id|]; [|done].
  destruct (chunkIndex req) as [idx|]; [|done].
  destruct (chunkData req) as [data|]; [|done].
  destruct (decide (id = "")) as [|_]; [done|].
  destruct (uploads w !! id) as [upload|]; [|done].
  destruct (negb _); [done|].
  destruct (_ || _); [done|].
  destruct (select_chunk_rows _ _ _) as [|row ?]; [done|].
  by destruct (bool_decide _).
Qed.



Section Overlap.

Variable sha256_hex : list Byte.byte → string.
Variable yauzl_opens : list Byte.byte → bool.
Variable sql_interval_hours : Q → Z.
















End Overlap.


(** ** PROCESSING with a PENDING chunk *)

(** The state after chunk 0 of the demo upload was stored and the finalizer
    it scheduled has claimed the session. *)
Definition demo_early_claim : server :=
  Server (finalize_lock 102 "u1" (store demo_s2)).1
         ([] ++ [])
         (running demo_s2
          ++ option_list (pair "u1" <$> (finalize_lock 102 "u1" (store demo_s2)).2)).

(** C2 fails on the code.  In the two-chunk demo upload, storing chunk 0
    answers [completed: 1, total: 2, isComplete: false] and still schedules
    [finalizeUpload]; that call finds the session UPLOADING and moves it to
    PROCESSING while one of its two chunk rows is PENDING.  The state is one
    the server reaches. *)
Theorem C2_processing_with_pending_chunk :
  body (uploadChunk demo_env 101 demo_chunk0 (multer demo_chunk0 (store demo_s1))).1.2
    = ProgressBody "Chunk uploaded successfully" 0 (Some 1) 2 false
  ∧ timers demo_s2 = ["u1"]
  ∧ reachable demo_sha256 demo_yauzl demo_interval demo_env demo_early_claim
  ∧ status_at (store demo_early_claim) "u1" = Some PROCESSING
  ∧ total_chunks <$> uploads (store demo_early_claim) !! "u1" = Some 2
  ∧ count_success "u1" (chunks (store demo_early_claim)) = 1
  ∧ c_status <$> chunks (store demo_early_claim) !! ("u1", 1) = Some PENDING.
Proof.
  split_and!; try reflexivity.
  apply (reachable_step _ _ _ _ demo_s2);
    [|by apply (step_lock _ _ _ _ 102 "u1" [] [] demo_s2)].
  apply (reachable_step _ _ _ _ demo_s1); [|apply step_chunk].
  apply (reachable_step _ _ _ _ boot); [apply reachable_boot|].
  by apply step_init.
Qed.

(** ** The foreign key of [chunks] in reachable states *)

Lemma foldl_preserves {A} (P : world → Prop) (f : world → A → world) l :
  (∀ w x, P w → P (f w x)) → ∀ w, P w → P (foldl f w l).
Proof.
  intros Hf. induction l as [|x l IH]; intros w Hw; simpl; [done|].
  apply IH. by apply Hf.
Qed.

Lemma chunks_reference_uploads_update w f id :
  chunks_reference_uploads w →
  chunks_reference_uploads (with_uploads (alter f id) w).
Proof.
  intros Hfk k row Hrow. simpl in *. apply lookup_alter_is_Some. by eapply Hfk.
Qed.

Lemma chunks_reference_uploads_same w w1 :
  uploads w1 = uploads w → chunks w1 = chunks w →
  chunks_reference_uploads w → chunks_reference_uploads w1.
Proof. intros Hup Hch Hfk k row. rewrite Hup, Hch. apply Hfk. Qed.

Section ForeignKey.

Variable sha256_hex : list Byte.byte → string.
Variable yauzl_opens : list Byte.byte → bool.
Variable sql_interval_hours : Q → Z.
Variable env : process_env.

Lemma initializeUpload_fk id now req w :
  chunks_reference_uploads w →
  chunks_reference_uploads (initializeUpload env id now req w).1.
Proof.
  intros Hfk. unfold initializeUpload.
  destruct (body_filename req) as [fname|]; [|done].
  destruct (totalSize req) as [tsize|]; [|done].
  destruct (totalChunks req) as [tchunks|]; [|done].
  destruct (_ || _ || _); [done|].
  destruct (_ || _); [done|].
  destruct (negb _); [done|]. simpl.
  destruct (uploads w !! id) as [?|] eqn:Hfresh; [done|].
  destruct (existsb _ _); [done|]. simpl.
  intros [id' i] row Hrow. simpl in *.
  destruct (decide (id' = id)) as [->|Hne].
  - rewrite lookup_insert_eq. by eexists.
  - rewrite lookup_insert_ne by done.
    assert (chunks w !! (id', i) = Some row) as Hold.
    { clear -Hrow Hne. induction (seqZ 0 tchunks) as [|j l IH]; simpl in Hrow; [done|].
      rewrite lookup_insert_ne in Hrow by congruence. by apply IH. }
    by apply Hfk in Hold.
Qed.

Lemma uploadChunk_fk now req w :
  chunks_reference_uploads w →
  chunks_reference_uploads (uploadChunk env now req w).1.1.
Proof.
  intros Hfk. unfold uploadChunk.
  destruct (uploadId req) as [id|]; [|done].
  destruct (chunkIndex req) as [idx|]; [|done].
  destruct (chunkData req) as [data|]; [|done].
  destruct (decide (id = "")); [done|].
  destruct (uploads w !! id) as [upload|] eqn:Hrow; [|done].
  destruct (negb _); [done|].
  destruct (_ || _); [done|].
  assert (chunks_reference_uploads
            (uploadChunk_store env now id idx data upload w).1.1) as Hstore.
  { unfold uploadChunk_store.
    destruct (fileUtils.writeChunkAtOffset _ _ _ _) as [[fs' written]|]; [|done].
    intros k row. simpl. intros Hk.
    apply lookup_alter_Some in Hk as [(_ & row0 & Hk & _)|[_ Hk]]; by eapply Hfk. }
  destruct (select_chunk_rows _ _ _) as [|row ?]; [done|].
  by destruct (bool_decide _).
Qed.

Lemma server_step_fk σ σ' :
  server_step sha256_hex yauzl_opens sql_interval_hours env σ σ' →
  chunks_reference_uploads (store σ) → chunks_reference_uploads (store σ').
Proof.
  intros Hstep Hfk.
  destruct Hstep as [id now req σ Hfresh|now req σ|now id before after σ Htimers
                    |now id upload before after σ Hrun|now σ|nowA nowB σ]; simpl.
  - by apply initializeUpload_fk.
  - apply uploadChunk_fk.
    apply (chunks_reference_uploads_same (store σ)); [..|done];
      by unfold multer; destruct (chunkData req).
  - unfold finalize_lock. destruct (uploads (store σ) !! id) as [upload|]; [|done].
    destruct (negb _); [done|]. by apply chunks_reference_uploads_update.
  - unfold finalize_settle. destruct (finalize_checks _ _ _ _);
      by apply chunks_reference_uploads_update.
  - unfold cleanupAbandonedUploads. apply foldl_preserves; [|done]. intros w sel Hw.
    apply chunks_reference_uploads_update.
    by apply (chunks_reference_uploads_same w).
  - unfold performStartupRecovery, recoverAbandonedUploads, recoverInterruptedUploads.
    apply foldl_preserves.
    + intros w sel Hw. apply chunks_reference_uploads_update.
      by apply (chunks_reference_uploads_same w).
    + apply foldl_preserves; [|done]. intros w sel Hw.
      destruct (recoverSingleUpload_update sha256_hex yauzl_opens nowA w sel)
        as (f & -> & _).
      by apply chunks_reference_uploads_update.
Qed.

(** Every state the server reaches satisfies the foreign key. *)
Lemma reachable_fk σ :
  reachable sha256_hex yauzl_opens sql_interval_hours env σ →
  chunks_reference_uploads (store σ).
Proof.
  induction 1 as [|σ σ' _ IH Hstep].
  - intros k row. simpl. by rewrite lookup_empty.
  - by eapply server_step_fk.
Qed.

End ForeignKey.

(** The server after chunk 0 of the demo upload was stored. *)
Lemma demo_s2_reachable :
  reachable demo_sha256 demo_yauzl demo_interval demo_env demo_s2.
Proof.
  apply (reachable_step _ _ _ _ demo_s1); [|apply step_chunk].
  apply (reachable_step _ _ _ _ boot); [apply reachable_boot|].
  by apply step_init.
Qed.

Lemma C9_initializeUpload_reports_no_chunks_witness :
  body (initializeUpload demo_env "u2" 200 demo_init demo_stored_world).2
  = InitBody "u2" [] "Upload initialized successfully".
Proof.
  eapply (C9_initializeUpload_reports_no_chunks demo_env "u2" 200 demo_init
            demo_stored_world).
  - exact (reachable_fk _ _ _ _ demo_s2 demo_s2_reachable).
  - apply surjective_pairing.
  - reflexivity.
Defined.

(** * Further properties of the code *)

(** ** The blob store (fileUtils) *)

(** A complete description of one positioned write. *)
Lemma pwrite_lookup content pos buf i :
  buf ≠ [] →
  fileUtils.pwrite content pos buf !! i
  = if decide (i < pos)%nat
    then (if decide (i < length content)%nat then content !! i else Some Byte.x00)
    else if decide (i < pos + length buf)%nat then buf !! (i - pos)%nat
         else content !! i.
Proof.
  intros Hbuf. destruct (decide (i < pos)%nat) as [Hlt|Hge].
  - destruct (decide (i < length content)%nat) as [Hin|Hout].
    + by apply pwrite_lookup_before.
    + unfold fileUtils.pwrite. destruct buf as [|b buf]; [done|].
      rewrite lookup_app_r by (rewrite length_take; lia).
      rewrite lookup_app_l by (rewrite length_take, length_replicate; lia).
      apply lookup_replicate_2. rewrite length_take. lia.
  - destruct (decide (i < pos + length buf)%nat) as [Hin|Hout].
    + destruct (lookup_lt_is_Some_2 buf (i - pos)) as [x Hx]; [lia|].
      rewrite Hx. replace i with (pos + (i - pos))%nat at 1 by lia.
      by apply pwrite_lookup_payload.
    + apply pwrite_lookup_after. lia.
Qed.

Lemma pwrite_length_max content pos buf :
  buf ≠ [] →
  length (fileUtils.pwrite content pos buf)
  = Nat.max (length content) (pos + length buf).
Proof. intros Hbuf. rewrite pwrite_length. by rewrite decide_False. Qed.

(** Two writes to ranges that do not overlap give the same file in either
    order, also when they extend the file. *)
Lemma pwrite_comm content pos1 buf1 pos2 buf2 :
  (pos1 + length buf1 ≤ pos2)%nat →
  fileUtils.pwrite (fileUtils.pwrite content pos1 buf1) pos2 buf2
  = fileUtils.pwrite (fileUtils.pwrite content pos2 buf2) pos1 buf1.
Proof.
  intros Hdisj.
  destruct (decide (buf1 = [])) as [->|Hb1]; [done|].
  destruct (decide (buf2 = [])) as [->|Hb2]; [done|].
  apply list_eq. intros i.
  rewrite !pwrite_lookup by done. rewrite !pwrite_length_max by done.
  repeat case_decide; try lia; try done.
  all: rewrite ?lookup_ge_None_2 by lia; try done.
Qed.

(** Writing the same bytes at the same place again changes nothing. *)
Lemma pwrite_idemp content pos buf :
  fileUtils.pwrite (fileUtils.pwrite content pos buf) pos buf
  = fileUtils.pwrite content pos buf.
Proof.
  destruct (decide (buf = [])) as [->|Hb]; [done|].
  apply list_eq. intros i.
  rewrite !pwrite_lookup by done. rewrite !pwrite_length_max by done.
  repeat case_decide; try lia; try done.
Qed.

(** X1: [preallocateFile] gives the file exactly [size] zero bytes, whatever
    it held before, so that [getFileSize] reads [size] and [fileExists]
    holds; no other file changes. *)
Theorem X1_preallocate_then_stat
    (filePath : string) (size : Z) (fs : gmap string (list Byte.byte)) :
  0 ≤ size →
  let fs' := fileUtils.preallocateFile filePath size fs in
  fileUtils.getFileSize filePath fs' = Some size
  ∧ fileUtils.fileExists filePath fs' = true
  ∧ (∀ content i x, fs' !! filePath = Some content → content !! i = Some x →
       x = Byte.x00)
  ∧ (∀ other, other ≠ filePath → fs' !! other = fs !! other).
Proof.
  intros Hsize fs'. unfold fs', fileUtils.preallocateFile,
    fileUtils.getFileSize, fileUtils.fileExists.
  rewrite lookup_insert_eq. simpl. split_and!.
  - rewrite length_replicate. f_equal. lia.
  - first [done | apply bool_decide_eq_true_2; by eexists].
  - intros content i x [= <-] Hx. by apply lookup_replicate_1 in Hx as [-> _].
  - intros other Hne. by rewrite lookup_insert_ne.
Qed.

Lemma X1_preallocate_then_stat_witness :
  let fs : gmap string (list Byte.byte) := {[ "blob.zip" := [Byte.x07] ]} in
  fileUtils.getFileSize "blob.zip" (fileUtils.preallocateFile "blob.zip" 3 fs) = Some 3.
Proof.
  intros fs.
  destruct (X1_preallocate_then_stat "blob.zip" 3 fs) as [Hsize _]; [lia|exact Hsize].
Defined.

(** X2: [safeDeleteFile] can be repeated and succeeds on a missing file;
    afterwards the file does not exist, its size cannot be read, a write at
    an offset is rejected, and every other file is as before. *)
Theorem X2_safeDeleteFile_effect
    (filePath : string) (fs : gmap string (list Byte.byte)) :
  let fs' := fileUtils.safeDeleteFile filePath fs in
  fileUtils.safeDeleteFile filePath fs' = fs'
  ∧ (fs !! filePath = None → fs' = fs)
  ∧ fileUtils.fileExists filePath fs' = false
  ∧ fileUtils.getFileSize filePath fs' = None
  ∧ (∀ offset dataStream,
       fileUtils.writeChunkAtOffset filePath offset dataStream fs' = None)
  ∧ (∀ other, other ≠ filePath → fs' !! other = fs !! other).
Proof.
  intros fs'. unfold fs', fileUtils.safeDeleteFile, fileUtils.fileExists,
    fileUtils.getFileSize, fileUtils.writeChunkAtOffset.
  rewrite lookup_delete_eq. split_and!.
  - apply delete_id. apply lookup_delete_eq.
  - apply delete_id.
  - first [done | apply bool_decide_eq_false_2; by intros [? ?]].
  - done.
  - done.
  - intros other Hne. by rewrite lookup_delete_ne.
Qed.

(** X3: two [writeChunkAtOffset] calls on one file whose byte ranges do not
    overlap both succeed and leave the same upload directory in either
    order. *)
Theorem X3_disjoint_writes_commute
    (filePath : string) (offset1 offset2 : Z)
    (stream1 stream2 : list (list Byte.byte))
    (fs : gmap string (list Byte.byte)) :
  is_Some (fs !! filePath) →
  0 ≤ offset1 →
  offset1 + Z.of_nat (length (concat stream1)) ≤ offset2 →
  ∃ fs',
    (fileUtils.writeChunkAtOffset filePath offset1 stream1 fs
       ≫= λ r, fst <$> fileUtils.writeChunkAtOffset filePath offset2 stream2 r.1)
    = Some fs'
    ∧ (fileUtils.writeChunkAtOffset filePath offset2 stream2 fs
         ≫= λ r, fst <$> fileUtils.writeChunkAtOffset filePath offset1 stream1 r.1)
      = Some fs'.
Proof.
  intros [content Hfile] Ho1 Hdisj.
  rewrite (writeChunkAtOffset_existing _ _ _ _ content) by done.
  rewrite (writeChunkAtOffset_existing _ offset2 _ _ content) by (done || lia).
  simpl.
  assert (0 ≤ offset2) as Ho2 by lia.
  rewrite (writeChunkAtOffset_existing _ offset2 _ _
             (fileUtils.pwrite content (Z.to_nat offset1) (concat stream1)))
    by (by rewrite lookup_insert_eq || done).
  rewrite (writeChunkAtOffset_existing _ offset1 _ _
             (fileUtils.pwrite content (Z.to_nat offset2) (concat stream2)))
    by (by rewrite lookup_insert_eq || done).
  simpl. rewrite !insert_insert_eq. eexists. split; [done|].
  do 2 f_equal. symmetry. apply pwrite_comm. lia.
Qed.

Lemma X3_disjoint_writes_commute_witness :
  let fs : gmap string (list Byte.byte) :=
    {[ "blob.zip" := [Byte.x00; Byte.x00; Byte.x00; Byte.x00] ]} in
  ∃ fs',
    (fileUtils.writeChunkAtOffset "blob.zip" 0 [[Byte.x01; Byte.x02]] fs
       ≫= λ r, fst <$> fileUtils.writeChunkAtOffset "blob.zip" 2 [[Byte.x03]] r.1)
    = Some fs'
    ∧ (fileUtils.writeChunkAtOffset "blob.zip" 2 [[Byte.x03]] fs
         ≫= λ r, fst <$> fileUtils.writeChunkAtOffset "blob.zip" 0 [[Byte.x01; Byte.x02]] r.1)
      = Some fs'.
Proof.
  intros fs.
  apply (X3_disjoint_writes_commute "blob.zip" 0 2 [[Byte.x01; Byte.x02]] [[Byte.x03]] fs);
    [by eexists|lia|simpl; lia].
Defined.

(** X4: writing the same stream at the same offset a second time leaves the
    file as the first write left it and reports the same byte count. *)
Theorem X4_repeated_write_is_idempotent
    (filePath : string) (offset : Z) (dataStream : list (list Byte.byte))
    (fs fs1 : gmap string (list Byte.byte)) (n : Z) :
  fileUtils.writeChunkAtOffset filePath offset dataStream fs = Some (fs1, n) →
  fileUtils.writeChunkAtOffset filePath offset dataStream fs1 = Some (fs1, n).
Proof.
  unfold fileUtils.writeChunkAtOffset at 1.
  destruct (fs !! filePath) as [content|] eqn:Hfile; [|done].
  destruct (Z.ltb_spec offset 0) as [?|Hoff]; [done|].
  intros [= <- <-].
  rewrite (writeChunkAtOffset_existing _ _ _ _
             (fileUtils.pipe content (Z.to_nat offset) dataStream))
    by (by rewrite lookup_insert_eq || done).
  rewrite insert_insert_eq, bytesWritten_concat.
  by rewrite !pipe_concat, pwrite_idemp.
Qed.

Lemma X4_repeated_write_is_idempotent_witness :
  let fs : gmap string (list Byte.byte) := {[ "blob.zip" := [Byte.x00; Byte.x00] ]} in
  let fs1 : gmap string (list Byte.byte) := {[ "blob.zip" := [Byte.x00; Byte.x09] ]} in
  fileUtils.writeChunkAtOffset "blob.zip" 1 [[Byte.x09]] fs1 = Some (fs1, 1).
Proof.
  intros fs fs1.
  apply (X4_repeated_write_is_idempotent "blob.zip" 1 [[Byte.x09]] fs fs1 1).
  reflexivity.
Defined.

Lemma X2_safeDeleteFile_effect_witness :
  let fs : gmap string (list Byte.byte) := {[ "other.zip" := [Byte.x01] ]} in
  fileUtils.safeDeleteFile "blob.zip" fs = fs.
Proof.
  intros fs.
  destruct (X2_safeDeleteFile_effect "blob.zip" fs) as (_ & Hsame & _).
  apply Hsame. reflexivity.
Defined.

(** ** Chunk ingestion, continued (uploadController.uploadChunk) *)

(** X5: [uploadChunk] never changes the [uploads] table; unless it answers
    200 it changes neither the chunk rows nor the upload directory and
    schedules no finalizer; and a 400 or 404 leaves the whole world,
    temp file included, as it was. *)
Theorem X5_uploadChunk_failures_change_nothing
    (env : process_env) (now : Z) (req : chunk_request) (w w' : world)
    (resp : response) (tr : list string) :
  uploadChunk env now req w = (w', resp, tr) →
  uploads w' = uploads w
  ∧ (http_status resp ≠ 200 →
       chunks w' = chunks w ∧ files w' = files w ∧ tr = [])
  ∧ (http_status resp = 400 ∨ http_status resp = 404 → w' = w).
Proof.
  unfold uploadChunk.
  destruct (uploadId req) as [id|]; [|by intros [= <- <- <-]].
  destruct (chunkIndex req) as [idx|]; [|by intros [= <- <- <-]].
  destruct (chunkData req) as [data|]; [|by intros [= <- <- <-]].
  destruct (decide (id = "")); [by intros [= <- <- <-]|].
  destruct (uploads w !! id) as [upload|]; [|by intros [= <- <- <-]].
  destruct (negb _); [by intros [= <- <- <-]|].
  destruct (_ || _); [by intros [= <- <- <-]|].
  assert (uploadChunk_store env now id idx data upload w = (w', resp, tr) →
          uploads w' = uploads w
          ∧ (http_status resp ≠ 200 →
               chunks w' = chunks w ∧ files w' = files w ∧ tr = [])
          ∧ (http_status resp = 400 ∨ http_status resp = 404 → w' = w)) as Hstore.
  { unfold uploadChunk_store.
    destruct (fileUtils.writeChunkAtOffset _ _ _ _) as [[fs' written]|].
    - intros [= <- <- <-]. simpl. split_and!; [done|done|]. by intros [|].
    - intros [= <- <- <-]. simpl. split_and!; [done|done|]. by intros [|]. }
  destruct (select_chunk_rows _ _ _) as [|row ?]; [done|].
  destruct (bool_decide _); [|done].
  intros [= <- <- <-]. simpl. split_and!; [done|done|]. by intros [|].
Qed.

Lemma X5_uploadChunk_failures_change_nothing_witness :
  uploads (uploadChunk demo_env 105 (demo_chunk 7 [Byte.x01]) demo_world).1.1
  = uploads demo_world
  ∧ (uploadChunk demo_env 105 (demo_chunk 7 [Byte.x01]) demo_world).1.1 = demo_world.
Proof.
  destruct (X5_uploadChunk_failures_change_nothing demo_env 105
              (demo_chunk 7 [Byte.x01]) demo_world
              (uploadChunk demo_env 105 (demo_chunk 7 [Byte.x01]) demo_world).1.1
              (uploadChunk demo_env 105 (demo_chunk 7 [Byte.x01]) demo_world).1.2
              (uploadChunk demo_env 105 (demo_chunk 7 [Byte.x01]) demo_world).2)
    as (Hup & _ & Hsame); [reflexivity|].
  split; [exact Hup|]. apply Hsame. left. reflexivity.
Defined.

(** *** The progress query *)

Lemma count_success_le_total (id : string) (m : gmap (string * Z) chunk_row) :
  count_success id m ≤ count_total id m.
Proof.
  unfold count_success, count_total. apply inj_le, map_subseteq_size.
  apply map_subseteq_spec. intros k row Hk.
  apply map_lookup_filter_Some in Hk as [Hk [Hid _]].
  by apply map_lookup_filter_Some.
Qed.

Lemma count_success_eq_total (id : string) (m : gmap (string * Z) chunk_row) :
  count_success id m = count_total id m
  ↔ ∀ k row, m !! k = Some row → k.1 = id → c_status row = SUCCESS.
Proof.
  unfold count_success, count_total. split.
  - intros Heq k row Hk Hid.
    assert (filter (λ kv : (string * Z) * chunk_row,
                      kv.1.1 = id ∧ c_status kv.2 = SUCCESS) m
            = filter (λ kv : (string * Z) * chunk_row, kv.1.1 = id) m) as Hmaps.
    { apply map_subseteq_size_eq; [|lia].
      apply map_subseteq_spec. intros k' row' Hk'.
      apply map_lookup_filter_Some in Hk' as [Hk' [Hid' _]].
      by apply map_lookup_filter_Some. }
    assert (filter (λ kv : (string * Z) * chunk_row, kv.1.1 = id) m !! k = Some row)
      as Hin by (by apply map_lookup_filter_Some).
    rewrite <-Hmaps in Hin. by apply map_lookup_filter_Some in Hin as [_ [_ ?]].
  - intros Hall. do 2 f_equal. apply map_eq. intros k.
    destruct (filter (λ kv : (string * Z) * chunk_row, kv.1.1 = id) m !! k)
      as [row|] eqn:Hk.
    + apply map_lookup_filter_Some in Hk as [Hk Hid].
      apply map_lookup_filter_Some. split_and!; [done..|]. by eapply Hall.
    + apply map_lookup_filter_None in Hk.
      apply map_lookup_filter_None. destruct Hk as [Hk|Hk]; [by left|right].
      intros row Hrow [Hid _]. by eapply Hk.
Qed.

Lemma count_total_pos (id : string) (m : gmap (string * Z) chunk_row) :
  0 < count_total id m ↔ ∃ k row, m !! k = Some row ∧ k.1 = id.
Proof.
  unfold count_total. split.
  - intros Hpos.
    destruct (map_choose (filter (λ kv : (string * Z) * chunk_row, kv.1.1 = id) m))
      as (k & row & Hk).
    { intros Hempty. rewrite Hempty, map_size_empty in Hpos. lia. }
    apply map_lookup_filter_Some in Hk as [Hk Hid]. by exists k, row.
  - intros (k & row & Hk & Hid).
    assert (filter (λ kv : (string * Z) * chunk_row, kv.1.1 = id) m ≠ ∅) as Hne.
    { intros Hempty.
      assert (filter (λ kv : (string * Z) * chunk_row, kv.1.1 = id) m !! k = Some row)
        as Hin by (by apply map_lookup_filter_Some).
      by rewrite Hempty, lookup_empty in Hin. }
    apply map_size_non_empty_iff in Hne. lia.
Qed.

(** [completed === total] of the progress query. *)
Lemma isComplete_iff (id : string) (m : gmap (string * Z) chunk_row) :
  js_strict_eq (count_completed id m) (count_total id m) = true
  ↔ (∃ k row, m !! k = Some row ∧ k.1 = id)
    ∧ ∀ k row, m !! k = Some row → k.1 = id → c_status row = SUCCESS.
Proof.
  rewrite <-count_total_pos, <-count_success_eq_total.
  unfold js_strict_eq, count_completed.
  destruct (Z.eqb_spec (count_total id m) 0) as [Hz|Hnz].
  - split; [done|]. intros [? _]. lia.
  - pose proof (count_success_le_total id m).
    assert (0 ≤ count_total id m) by (unfold count_total; lia).
    rewrite Z.eqb_eq. split; [intros ?; split; [lia|done]|by intros [_ ?]].
Qed.

(** X6: when [uploadChunk] stores a chunk, the [isComplete] flag of its
    answer is true exactly when the session has chunk rows and all of them
    are SUCCESS; [total] is the number of its rows, [completed] is at most
    [total], and the flag decides between two scheduled finalizers and one. *)
Theorem X6_isComplete_means_all_rows_success
    (env : process_env) (now : Z) (req : chunk_request) (w w' : world)
    (id msg : string) (idx total : Z) (completed : option Z) (isComplete : bool)
    (tr : list string) :
  uploadId req = Some id →
  uploadChunk env now req w
  = (w', Response 200 (ProgressBody msg idx completed total isComplete), tr) →
  (isComplete = true
   ↔ (∃ k row, chunks w' !! k = Some row ∧ k.1 = id)
     ∧ ∀ k row, chunks w' !! k = Some row → k.1 = id → c_status row = SUCCESS)
  ∧ total = count_total id (chunks w')
  ∧ (∀ n, completed = Some n → 0 ≤ n ≤ total)
  ∧ tr = (if isComplete then [id; id] else [id]).
Proof.
  intros Hid. unfold uploadChunk. rewrite Hid.
  destruct (chunkIndex req) as [idx'|]; [|done].
  destruct (chunkData req) as [data|]; [|done].
  destruct (decide (id = "")) as [|_]; [done|].
  destruct (uploads w !! id) as [upload|]; [|done].
  destruct (negb _); [done|].
  destruct (_ || _); [done|].
  assert (uploadChunk_store env now id idx' data upload w
          = (w', Response 200 (ProgressBody msg idx completed total isComplete), tr) →
          (isComplete = true
           ↔ (∃ k row, chunks w' !! k = Some row ∧ k.1 = id)
             ∧ ∀ k row, chunks w' !! k = Some row → k.1 = id → c_status row = SUCCESS)
          ∧ total = count_total id (chunks w')
          ∧ (∀ n, completed = Some n → 0 ≤ n ≤ total)
          ∧ tr = (if isComplete then [id; id] else [id])) as Hstore.
  { unfold uploadChunk_store.
    destruct (fileUtils.writeChunkAtOffset _ _ _ _) as [[fs' written]|]; [|done].
    intros [= <- <- <- <- <- <- <-]. simpl. split_and!.
    - apply isComplete_iff.
    - done.
    - intros c. unfold count_completed. destruct (_ =? 0); [done|].
      intros [= <-]. split; [unfold count_success; lia|apply count_success_le_total].
    - by destruct (js_strict_eq _ _). }
  destruct (select_chunk_rows _ _ _) as [|row ?]; [done|].
  by destruct (bool_decide _).
Qed.

Lemma X6_isComplete_means_all_rows_success_witness :
  (true = true
   ↔ (∃ k row, chunks (store demo_s3) !! k = Some row ∧ k.1 = "u1")
     ∧ ∀ k row, chunks (store demo_s3) !! k = Some row → k.1 = "u1" →
         c_status row = SUCCESS)
  ∧ 2 = count_total "u1" (chunks (store demo_s3)).
Proof.
  destruct (X6_isComplete_means_all_rows_success demo_env 102 demo_chunk1
              (multer demo_chunk1 (store demo_s2)) (store demo_s3)
              "u1" "Chunk uploaded successfully" 1 2 (Some 2) true ["u1"; "u1"])
    as (Hiff & Htotal & _); [reflexivity|reflexivity|].
  split; [exact Hiff|exact Htotal].
Defined.

Lemma alter_as_insert {A} (f : A → A) (m : gmap (string * Z) A) (k : string * Z) (v : A) :
  m !! k = Some v → alter f k m = <[k := f v]> m.
Proof.
  intros Hk. apply map_eq. intros j. destruct (decide (j = k)) as [->|Hne].
  - by rewrite lookup_alter_eq, lookup_insert_eq, Hk.
  - by rewrite lookup_alter_ne, lookup_insert_ne.
Qed.

Lemma count_total_mark (id : string) (idx now : Z)
    (m : gmap (string * Z) chunk_row) (row : chunk_row) :
  m !! (id, idx) = Some row →
  count_total id (alter (mark_success now) (id, idx) m) = count_total id m.
Proof.
  intros Hrow. rewrite (alter_as_insert _ _ _ row) by done. unfold count_total.
  rewrite map_filter_insert_True by done.
  rewrite map_size_insert_Some; [done|].
  exists row. by apply map_lookup_filter_Some.
Qed.

Lemma count_success_mark (id : string) (idx now : Z)
    (m : gmap (string * Z) chunk_row) (row : chunk_row) :
  m !! (id, idx) = Some row → c_status row = PENDING →
  count_success id (alter (mark_success now) (id, idx) m) = count_success id m + 1.
Proof.
  intros Hrow Hpend. rewrite (alter_as_insert _ _ _ row) by done. unfold count_success.
  rewrite map_filter_insert_True by done.
  rewrite map_size_insert_None; [lia|].
  apply map_lookup_filter_None. right. intros row' Hrow' [_ Hs].
  simpl in Hs. congruence.
Qed.

(** X7: storing a chunk whose row is PENDING raises the [completed] count of
    the session by exactly one, leaves [total] as it was, and changes no
    other chunk row. *)
Theorem X7_stored_chunk_counts_once
    (env : process_env) (now : Z) (req : chunk_request) (w w' : world)
    (id msg : string) (idx total : Z) (completed : option Z) (isComplete : bool)
    (tr : list string) (row : chunk_row) :
  uploadId req = Some id →
  chunkIndex req = Some idx →
  chunks w !! (id, idx) = Some row →
  c_status row = PENDING →
  uploadChunk env now req w
  = (w', Response 200 (ProgressBody msg idx completed total isComplete), tr) →
  completed = Some (count_success id (chunks w) + 1)
  ∧ total = count_total id (chunks w)
  ∧ chunks w' = <[(id, idx) := ChunkRow SUCCESS (Some now)]> (chunks w).
Proof.
  intros Hid Hidx Hrow Hpend. unfold uploadChunk. rewrite Hid, Hidx.
  destruct (chunkData req) as [data|]; [|done].
  destruct (decide (id = "")) as [|_]; [done|].
  destruct (uploads w !! id) as [upload|]; [|done].
  destruct (negb _); [done|].
  destruct (_ || _); [done|].
  unfold select_chunk_rows. rewrite Hrow. simpl.
  rewrite bool_decide_eq_false_2 by (rewrite Hpend; discriminate).
  unfold uploadChunk_store.
  destruct (fileUtils.writeChunkAtOffset _ _ _ _) as [[fs' written]|]; [|done].
  intros [= <- <- <- <- <-]. simpl.
  assert (count_total id (alter (mark_success now) (id, idx) (chunks w))
          = count_total id (chunks w)) as Htotal by (by eapply count_total_mark).
  split_and!.
  - unfold count_completed. rewrite Htotal.
    assert (0 < count_total id (chunks w)) as Hpos.
    { apply count_total_pos. by exists (id, idx), row. }
    destruct (Z.eqb_spec (count_total id (chunks w)) 0); [lia|].
    f_equal. by eapply count_success_mark.
  - done.
  - by rewrite (alter_as_insert _ _ _ row).
Qed.

Lemma X7_stored_chunk_counts_once_witness :
  Some 2 = Some (count_success "u1" (chunks (multer demo_chunk1 (store demo_s2))) + 1)
  ∧ 2 = count_total "u1" (chunks (multer demo_chunk1 (store demo_s2))).
Proof.
  destruct (X7_stored_chunk_counts_once demo_env 102 demo_chunk1
              (multer demo_chunk1 (store demo_s2)) (store demo_s3)
              "u1" "Chunk uploaded successfully" 1 2 (Some 2) true ["u1"; "u1"]
              pending_row)
    as (Hc & Ht & _); [reflexivity..|].
  split; [exact Hc|exact Ht].
Defined.

(** *** Chunk rows over the life of the server *)

Lemma insert_chunk_records_keeps (id : string) (indices : list Z)
    (m : gmap (string * Z) chunk_row) (k : string * Z) (row : chunk_row) :
  existsb (λ i, bool_decide (is_Some (m !! (id, i)))) indices = false →
  m !! k = Some row →
  insert_chunk_records id indices m !! k = Some row.
Proof.
  induction indices as [|i rest IH]; simpl; [done|].
  intros Hex Hk. apply orb_false_iff in Hex as [Hi Hrest].
  apply bool_decide_eq_false in Hi.
  rewrite lookup_insert_ne; [by apply IH|].
  intros <-. apply Hi. by eexists.
Qed.

Lemma initializeUpload_keeps_chunks env id now req w k row :
  chunks w !! k = Some row →
  chunks (initializeUpload env id now req w).1 !! k = Some row.
Proof.
  intros Hk. unfold initializeUpload.
  destruct (body_filename req) as [fname|]; [|done].
  destruct (totalSize req) as [tsize|]; [|done].
  destruct (totalChunks req) as [tchunks|]; [|done].
  destruct (_ || _ || _); [done|].
  destruct (_ || _); [done|].
  destruct (negb _); [done|]. simpl.
  destruct (uploads w !! id); [done|].
  destruct (existsb _ _) eqn:Hex; [done|]. simpl.
  by apply insert_chunk_records_keeps.
Qed.

Lemma uploadChunk_keeps_chunks env now req w k row :
  chunks w !! k = Some row →
  (c_status row = SUCCESS → chunks (uploadChunk env now req w).1.1 !! k = Some row)
  ∧ is_Some (chunks (uploadChunk env now req w).1.1 !! k).
Proof.
  intros Hk. unfold uploadChunk.
  destruct (uploadId req) as [id|]; [|by split; [|eexists]].
  destruct (chunkIndex req) as [idx|]; [|by split; [|eexists]].
  destruct (chunkData req) as [data|]; [|by split; [|eexists]].
  destruct (decide (id = "")) as [|_]; [by split; [|eexists]|].
  destruct (uploads w !! id) as [upload|]; [|by split; [|eexists]].
  destruct (negb _); [by split; [|eexists]|].
  destruct (_ || _); [by split; [|eexists]|].
  assert (is_Some (chunks (uploadChunk_store env now id idx data upload w).1.1 !! k))
    as Hsome.
  { unfold uploadChunk_store.
    destruct (fileUtils.writeChunkAtOffset _ _ _ _) as [[fs' written]|];
      [|by eexists].
    simpl. apply lookup_alter_is_Some. by eexists. }
  assert (k ≠ (id, idx) →
          chunks (uploadChunk_store env now id idx data upload w).1.1 !! k = Some row)
    as Hother.
  { intros Hne. unfold uploadChunk_store.
    destruct (fileUtils.writeChunkAtOffset _ _ _ _) as [[fs' written]|]; [|done].
    simpl. by rewrite lookup_alter_ne. }
  unfold select_chunk_rows.
  destruct (chunks w !! (id, idx)) as [row'|] eqn:Hrow; simpl.
  - destruct (bool_decide (c_status row' = SUCCESS)) eqn:Hs; [by split; [|eexists]|].
    apply bool_decide_eq_false in Hs. split; [|done].
    intros Hsucc. apply Hother. intros ->. rewrite Hrow in Hk. by injection Hk as ->.
  - split; [|done]. intros _. apply Hother. intros ->. by rewrite Hrow in Hk.
Qed.

Lemma sweep_keeps_chunks {A} (f : world → A → world) l :
  (∀ w x, chunks (f w x) = chunks w) → ∀ w, chunks (foldl f w l) = chunks w.
Proof.
  intros Hf. induction l as [|x l IH]; intros w; simpl; [done|].
  by rewrite IH, Hf.
Qed.

Lemma recoverSingleUpload_frame sha256_hex yauzl_opens now w sel :
  chunks (recoverSingleUpload sha256_hex yauzl_opens now w sel) = chunks w
  ∧ files (recoverSingleUpload sha256_hex yauzl_opens now w sel) = files w
  ∧ temp (recoverSingleUpload sha256_hex yauzl_opens now w sel) = temp w.
Proof.
  destruct (recoverSingleUpload_update sha256_hex yauzl_opens now w sel) as (f & -> & _).
  done.
Qed.

Lemma uploadChunk_store_chunks env now id idx data upload w k row :
  chunks w !! k = Some row →
  ∃ row', chunks (uploadChunk_store env now id idx data upload w).1.1 !! k = Some row'
          ∧ (c_status row = SUCCESS → c_status row' = SUCCESS).
Proof.
  intros Hk. unfold uploadChunk_store.
  destruct (fileUtils.writeChunkAtOffset _ _ _ _) as [[fs' written]|]; [|by exists row].
  simpl. destruct (decide (k = (id, idx))) as [->|Hne].
  - rewrite lookup_alter_eq, Hk. simpl. by eexists.
  - rewrite lookup_alter_ne by done. by exists row.
Qed.

(** X8: chunk rows only advance.  No step of the event loop, overlapping
    requests and sweeps included, deletes a chunk row or takes a SUCCESS row
    back to PENDING. *)
Theorem X8_chunk_rows_only_advance
    (sha256_hex : list Byte.byte → string) (yauzl_opens : list Byte.byte → bool)
    (sql_interval_hours : Q → Z) (env : process_env)
    (st st' : loop) (k : string * Z) (row : chunk_row) :
  loop_step sha256_hex yauzl_opens sql_interval_hours env st st' →
  chunks (store (proc st)) !! k = Some row →
  ∃ row', chunks (store (proc st')) !! k = Some row'
          ∧ (c_status row = SUCCESS → c_status row' = SUCCESS).
Proof.
  intros Hstep Hk.
  destruct Hstep as [id now req st Hfresh|now req st|req cw st Hguard
                    |now cw before after st Hwriting
                    |now id before after st Htimers
                    |now id upload before after st Hrun|now st|now st
                    |sel rest before after st Hsweeping|nowA nowB st]; simpl.
  - rewrite (initializeUpload_keeps_chunks env id now req _ k row Hk). by exists row.
  - assert (chunks (multer req (store (proc st))) !! k = Some row) as Hk'
      by (by unfold multer; destruct (chunkData req)).
    destruct (uploadChunk_keeps_chunks env now req _ k row Hk') as [Hs [row' Hrow']].
    exists row'. split; [done|]. intros Hsucc. rewrite (Hs Hsucc) in Hrow'.
    by injection Hrow' as <-.
  - exists row. split; [|done]. by unfold multer; destruct (chunkData req).
  - by apply uploadChunk_store_chunks.
  - unfold finalize_lock. destruct (uploads (store (proc st)) !! id); [|by exists row].
    destruct (negb _); by exists row.
  - unfold finalize_settle. destruct (finalize_checks _ _ _ _); by exists row.
  - unfold cleanupAbandonedUploads. rewrite sweep_keeps_chunks; [|done]. by exists row.
  - by exists row.
  - by exists row.
  - unfold performStartupRecovery, recoverAbandonedUploads, recoverInterruptedUploads.
    rewrite sweep_keeps_chunks; [|done].
    rewrite sweep_keeps_chunks; [by exists row|].
    intros w sel. apply recoverSingleUpload_frame.
Qed.

Lemma X8_chunk_rows_only_advance_witness :
  ∃ row', chunks (store demo_s3) !! ("u1", 0) = Some row'
          ∧ (SUCCESS = SUCCESS → c_status row' = SUCCESS).
Proof.
  apply (X8_chunk_rows_only_advance demo_sha256 demo_yauzl demo_interval demo_env
           (Loop demo_s2 [] []) (Loop demo_s3 [] []) ("u1", 0)
           (ChunkRow SUCCESS (Some 101))).
  - unfold demo_s3. apply (loop_chunk _ _ _ _ 102 demo_chunk1 (Loop demo_s2 [] [])).
  - vm_compute. reflexivity.
Defined.

(** ** Sessions over the life of the server *)


Lemma select_abandoned_elem now hours (m : gmap string upload_row) id r :
  (id, r) ∈ select_abandoned now hours m
  ↔ m !! id = Some r ∧ status r = UPLOADING ∧ created_at r < now - 3600 * hours.
Proof.
  unfold select_abandoned. by rewrite elem_of_map_to_list, map_lookup_filter_Some.
Qed.

Lemma select_processing_elem (m : gmap string upload_row) id r :
  (id, r) ∈ select_processing m ↔ m !! id = Some r ∧ status r = PROCESSING.
Proof.
  unfold select_processing. by rewrite elem_of_map_to_list, map_lookup_filter_Some.
Qed.


(** ** Session creation, continued (uploadController.initializeUpload) *)










(** ** The shape of a session *)






Section LoopInvariants.

Variable sha256_hex : list Byte.byte → string.
Variable yauzl_opens : list Byte.byte → bool.
Variable sql_interval_hours : Q → Z.
Variable env : process_env.










End LoopInvariants.



(** ** One call of the finalizer (uploadController.finalizeUpload) *)

(** X12: what one uninterrupted call of [finalizeUpload] does to an UPLOADING
    session is decided by the blob alone; the chunk rows are never read.  The
    session ends COMPLETED, with the digest of the blob and both timestamps
    set, exactly when the blob exists, has [total_size] bytes and opens as a
    ZIP; in every other case it ends FAILED with [final_hash] and
    [completed_at] as they were and [updated_at] moved by the claim.  Other
    rows, the chunk rows and the files are not touched. *)
Theorem X12_finalizeUpload_outcome
    (sha256_hex : list Byte.byte → string) (yauzl_opens : list Byte.byte → bool)
    (now : Z) (id : string) (w : world) (r : upload_row) :
  uploads w !! id = Some r →
  status r = UPLOADING →
  let passes :=
    match files w !! file_path r with
    | Some blob => (Z.of_nat (length blob) =? total_size r) && yauzl_opens blob
    | None => false
    end in
  let digest := sha256_hex <$> files w !! file_path r in
  finalizeUpload sha256_hex yauzl_opens now id w
  = with_uploads
      (insert id
         (if passes
          then UploadRow (filename r) (total_size r) (total_chunks r) COMPLETED digest
                         (file_path r) (created_at r) now (Some now)
          else UploadRow (filename r) (total_size r) (total_chunks r) FAILED (final_hash r)
                         (file_path r) (created_at r) now (completed_at r))) w.
Proof.
  intros Hrow Hst. cbv zeta.
  unfold finalizeUpload, finalize_lock. rewrite Hrow.
  rewrite bool_decide_eq_true_2 by done. simpl.
  unfold finalize_settle, finalize_checks, fileUtils.getFileSize, calculateFileHash,
    isValidZip. simpl.
  destruct (files w !! file_path r) as [blob|]; simpl.
  - destruct (Z.of_nat (length blob) =? total_size r); simpl.
    + destruct (yauzl_opens blob); simpl; unfold with_uploads; simpl; f_equal;
        apply map_eq; intros k; destruct (decide (k = id)) as [->|Hne];
        rewrite ?lookup_alter_eq, ?lookup_insert_eq, ?lookup_alter_ne, ?lookup_insert_ne
          by done; rewrite ?Hrow; done.
    + unfold with_uploads; simpl; f_equal.
      apply map_eq; intros k; destruct (decide (k = id)) as [->|Hne];
        rewrite ?lookup_alter_eq, ?lookup_insert_eq, ?lookup_alter_ne, ?lookup_insert_ne
          by done; rewrite ?Hrow; done.
  - unfold with_uploads; simpl; f_equal.
    apply map_eq; intros k; destruct (decide (k = id)) as [->|Hne];
      rewrite ?lookup_alter_eq, ?lookup_insert_eq, ?lookup_alter_ne, ?lookup_insert_ne
        by done; rewrite ?Hrow; done.
Qed.

Lemma X12_finalizeUpload_outcome_witness :
  let r := UploadRow "data.zip" 6 2 UPLOADING None "./uploads/u1.zip" 100 100 None in
  let passes :=
    match files (store demo_s3) !! file_path r with
    | Some blob => (Z.of_nat (length blob) =? total_size r) && demo_yauzl blob
    | None => false
    end in
  let digest := demo_sha256 <$> files (store demo_s3) !! file_path r in
  finalizeUpload demo_sha256 demo_yauzl 103 "u1" (store demo_s3)
  = with_uploads
      (insert "u1"
         (if passes
          then UploadRow (filename r) (total_size r) (total_chunks r) COMPLETED digest
                         (file_path r) (created_at r) 103 (Some 103)
          else UploadRow (filename r) (total_size r) (total_chunks r) FAILED (final_hash r)
                         (file_path r) (created_at r) 103 (completed_at r)))
      (store demo_s3).
Proof.
  intros r.
  assert (uploads (store demo_s3) !! "u1" = Some r) as Hrow by (vm_compute; reflexivity).
  exact (X12_finalizeUpload_outcome demo_sha256 demo_yauzl 103 "u1" (store demo_s3) r
           Hrow eq_refl).
Defined.

(** ** Sweep A on one session (recoveryService.recoverSingleUpload) *)

(** [completed < total] of the recovery: some chunk row is not SUCCESS. *)
Lemma js_lt_iff (id : string) (m : gmap (string * Z) chunk_row) :
  js_lt (count_completed id m) (count_total id m) = true
  ↔ ∃ k row, m !! k = Some row ∧ k.1 = id ∧ c_status row ≠ SUCCESS.
Proof.
  pose proof (count_success_le_total id m) as Hle.
  pose proof (count_success_eq_total id m) as Heq.
  pose proof (count_total_pos id m) as Hpos.
  unfold js_lt, count_completed. split.
  - intros Hlt.
    destruct (Z.eqb_spec (count_total id m) 0) as [Hz|Hnz].
    { rewrite Hz in Hlt. done. }
    apply Z.ltb_lt in Hlt.
    destruct (decide (map_Forall (λ (k : string * Z) (row : chunk_row),
                                    k.1 = id → c_status row = SUCCESS) m))
      as [Hall|Hnot].
    + assert (count_success id m = count_total id m); [|lia].
      apply Heq. intros k row Hk Hid. by apply (Hall k row).
    + apply map_not_Forall in Hnot; [|apply _].
      destruct Hnot as (k & row & Hk & Hbad).
      exists k, row. split; [done|].
      destruct (decide (k.1 = id)) as [Hid|Hid]; [|by destruct Hbad].
      split; [done|]. intros Hs. by apply Hbad.
  - intros (k & row & Hk & Hid & Hbad).
    assert (0 < count_total id m) by (apply Hpos; by exists k, row).
    assert (count_success id m ≠ count_total id m).
    { intros Hall. apply Hbad. by apply (proj1 Heq Hall k row). }
    destruct (Z.eqb_spec (count_total id m) 0); [lia|].
    apply Z.ltb_lt. lia.
Qed.

Section SweepA.

Variable sha256_hex : list Byte.byte → string.
Variable yauzl_opens : list Byte.byte → bool.

Abbreviation recover1 := (recoverSingleUpload sha256_hex yauzl_opens).

Lemma recoverSingleUpload_congr now w0 w id r :
  files w0 = files w → chunks w0 = chunks w →
  uploads w0 !! id = uploads w !! id →
  uploads (recover1 now w0 (id, r)) !! id = uploads (recover1 now w (id, r)) !! id.
Proof.
  intros Hf Hc Hu. unfold recoverSingleUpload. rewrite Hf, Hc.
  destruct (negb _); [by simpl; rewrite !lookup_alter_eq, Hu|].
  destruct (js_lt _ _); [by simpl; rewrite !lookup_alter_eq, Hu|].
  destruct (finalize_checks _ _ _ _); by simpl; rewrite !lookup_alter_eq, Hu.
Qed.

(** The sweep treats every selected session as if it were alone. *)
Lemma sweepA_visited now w id r l : ∀ w0,
  NoDup (l.*1) → (id, r) ∈ l →
  files w0 = files w → chunks w0 = chunks w →
  uploads w0 !! id = uploads w !! id →
  uploads (foldl (recover1 now) w0 l) !! id = uploads (recover1 now w (id, r)) !! id.
Proof.
  induction l as [|sel l IH]; intros w0 Hnd Hin Hf Hc Hu; [by apply elem_of_nil in Hin|].
  apply NoDup_cons in Hnd as [Hnotin Hnd]. simpl.
  destruct (recoverSingleUpload_frame sha256_hex yauzl_opens now w0 sel) as (Hc' & Hf' & _).
  apply elem_of_cons in Hin as [<-|Hin].
  - rewrite (sweep_lookup_unvisited _ (recoverSingleUpload_other sha256_hex yauzl_opens now))
      by done.
    by apply recoverSingleUpload_congr.
  - apply IH; [done|done|congruence|congruence|].
    rewrite recoverSingleUpload_other; [done|].
    intros ->. apply Hnotin. apply list_elem_of_fmap. by exists (sel.1, r).
Qed.

End SweepA.

(** X13: what Sweep A of the startup recovery does to a PROCESSING session,
    whatever else is in the tables.  Without a blob the session becomes
    FAILED (and [updated_at] stays); with a blob and a chunk row that is not
    SUCCESS it goes back to UPLOADING; with a blob and all chunk rows SUCCESS
    it becomes COMPLETED when the blob has [total_size] bytes and opens as a
    ZIP, and FAILED otherwise.  The sweep changes neither files nor chunk
    rows. *)
Theorem X13_recovery_of_a_processing_session
    (sha256_hex : list Byte.byte → string) (yauzl_opens : list Byte.byte → bool)
    (now : Z) (w : world) (id : string) (r : upload_row) :
  uploads w !! id = Some r →
  status r = PROCESSING →
  let w' := recoverInterruptedUploads sha256_hex yauzl_opens now w in
  files w' = files w ∧ chunks w' = chunks w
  ∧ match files w !! file_path r with
    | None => uploads w' !! id = Some (set_status FAILED r)
    | Some blob =>
        ((∃ k row, chunks w !! k = Some row ∧ k.1 = id ∧ c_status row ≠ SUCCESS) →
         uploads w' !! id = Some (set_updated_at now (set_status UPLOADING r)))
        ∧ ((∀ k row, chunks w !! k = Some row → k.1 = id → c_status row = SUCCESS) →
           status_at w' id
           = Some (if (Z.of_nat (length blob) =? total_size r) && yauzl_opens blob
                   then COMPLETED else FAILED))
    end.
Proof.
  intros Hrow Hst w'. unfold w', recoverInterruptedUploads. split_and!.
  - apply (foldl_preserves (λ w0, files w0 = files w)); [|done].
    intros w0 sel <-.
    by destruct (recoverSingleUpload_frame sha256_hex yauzl_opens now w0 sel) as (_ & ? & _).
  - apply (foldl_preserves (λ w0, chunks w0 = chunks w)); [|done].
    intros w0 sel <-.
    by destruct (recoverSingleUpload_frame sha256_hex yauzl_opens now w0 sel) as (? & _ & _).
  - unfold status_at.
    rewrite (sweepA_visited sha256_hex yauzl_opens now w id r);
      [|apply NoDup_fst_map_to_list|by apply select_processing_elem|done..].
    unfold recoverSingleUpload, fileUtils.fileExists.
    destruct (files w !! file_path r) as [blob|] eqn:Hblob.
    + rewrite bool_decide_eq_true_2 by (by eexists). simpl. split.
      * intros Hpending. apply js_lt_iff in Hpending. rewrite Hpending.
        simpl. by rewrite lookup_alter_eq, Hrow.
      * intros Hall.
        destruct (js_lt _ _) eqn:Hlt.
        { apply js_lt_iff in Hlt as (k & row & Hk & Hid & Hbad).
          destruct Hbad. by apply (Hall k row). }
        unfold finalize_checks, fileUtils.getFileSize, calculateFileHash, isValidZip.
        rewrite Hblob. simpl.
        destruct (Z.of_nat (length blob) =? total_size r); simpl;
          [destruct (yauzl_opens blob); simpl|]; by rewrite lookup_alter_eq, Hrow.
    + rewrite bool_decide_eq_false_2 by (by intros [? ?]). simpl.
      by rewrite lookup_alter_eq, Hrow.
Qed.

Lemma X13_recovery_of_a_processing_session_witness :
  uploads (recoverInterruptedUploads demo_sha256 demo_yauzl 200 (store demo_early_claim))
    !! "u1"
  = Some (UploadRow "data.zip" 6 2 UPLOADING None "./uploads/u1.zip" 100 200 None).
Proof.
  assert (uploads (store demo_early_claim) !! "u1"
          = Some (UploadRow "data.zip" 6 2 PROCESSING None "./uploads/u1.zip" 100 102 None))
    as Hrow by (vm_compute; reflexivity).
  destruct (X13_recovery_of_a_processing_session demo_sha256 demo_yauzl 200
              (store demo_early_claim) "u1" _ Hrow eq_refl) as (_ & _ & Hcase).
  cbn [file_path] in Hcase.
  assert (files (store demo_early_claim) !! "./uploads/u1.zip"
          = Some [Byte.x01; Byte.x02; Byte.x03; Byte.x04; Byte.x00; Byte.x00]) as Hblob
    by (vm_compute; reflexivity).
  rewrite Hblob in Hcase. destruct Hcase as [Hback _].
  apply Hback. exists ("u1", 1), (ChunkRow PENDING None).
  split_and!; [vm_compute; reflexivity|reflexivity|discriminate].
Defined.

(** ** The periodic cleanup, repeated *)

(** X14: a second cleanup sweep whose clock is not later than the first one's
    finds nothing to do: the sessions the first sweep selected are FAILED and
    the ones it spared are still not old enough. *)
Theorem X14_cleanup_again_is_noop
    (env : process_env) (now now' : Z) (w : world) :
  now' ≤ now →
  cleanupAbandonedUploads env now' (cleanupAbandonedUploads env now w)
  = cleanupAbandonedUploads env now w.
Proof.
  intros Hclock.
  set (w1 := cleanupAbandonedUploads env now w).
  unfold cleanupAbandonedUploads at 1. unfold select_abandoned.
  rewrite map_empty_filter_2; [by rewrite map_to_list_empty|].
  intros k r Hk [Hup Hold]. simpl in Hup, Hold.
  unfold w1, cleanupAbandonedUploads in Hk.
  change (foldl _ w _)
    with (foldl (reap (set_status FAILED)) w
                (select_abandoned now (timeoutHours env) (uploads w))) in Hk.
  rewrite reap_uploads in Hk by apply NoDup_fst_map_to_list.
  case_decide as Hin.
  - destruct (uploads w !! k) as [r0|]; simpl in Hk; [|done].
    injection Hk as <-. done.
  - apply Hin. apply list_elem_of_fmap. exists (k, r). split; [done|].
    apply select_abandoned_elem. split_and!; [done..|lia].
Qed.

Lemma X14_cleanup_again_is_noop_witness :
  cleanupAbandonedUploads demo_env 90000 (cleanupAbandonedUploads demo_env 90000 demo_world)
  = cleanupAbandonedUploads demo_env 90000 demo_world.
Proof. apply (X14_cleanup_again_is_noop demo_env 90000 90000 demo_world). lia. Defined.

(** ** Reassembly of the client's slices *)





Section Reassembly.

Variable env : process_env.
Variable file : list Byte.byte.
Variable id : string.
Variable r : upload_row.

Hypothesis same_chunk_size : CHUNK_SIZE env = CLIENT_CHUNK_SIZE.
Hypothesis id_not_empty : id ≠ "".
Hypothesis uploading : status r = UPLOADING.







End Reassembly.


